(** * Pts geometry kernel ([src/Op.ts]): scalar helpers, bounding boxes,
      lines and rectangles.

    The numeric type of the source is the IEEE double.  The development
    keeps its special values (NaN and the two infinities) and the way the
    operators treat them, and replaces the finite doubles by exact
    rationals: rounding and the sign of zero are not modelled.  The one
    place of [Op.ts] where a branch is taken on two computed values being
    equal, the y-intercepts in [intersectPath2D], is given a second time
    on the binary64 doubles themselves (module [Binary64]). *)

From Stdlib Require Import QArith Qcanon Qround ZArith Lia Lqa.
From Stdlib Require Import Floats.PrimFloat.
From stdpp Require Import base numbers list strings option.

(** ** Numbers *)

Module Number.

Local Open Scope Qc_scope.

Inductive number : Type :=
  | Fin (q : Qc)
  | PInf
  | NInf
  | NaN.

#[global] Instance number_eq_dec : EqDecision number.
Proof. solve_decision. Defined.

#[global] Instance number_inhabited : Inhabited number := populate NaN.

(** Integer literals of the source. *)
Definition int (n : Z) : number := Fin (Qc_of_Z n).

(** Sign of an exact quotient by zero and of a product with an infinity. *)
Definition inf_of_sign (positive : bool) : number :=
  if positive then PInf else NInf.

Definition is_pos (q : Qc) : bool := bool_decide (0 < q).
Definition is_zero (q : Qc) : bool := bool_decide (q = 0).

(** Unary minus. *)
Definition neg (a : number) : number :=
  match a with
  | Fin q => Fin (- q)
  | PInf => NInf
  | NInf => PInf
  | NaN => NaN
  end.

(** [a + b] *)
Definition add (a b : number) : number :=
  match a, b with
  | NaN, _ | _, NaN => NaN
  | Fin x, Fin y => Fin (x + y)
  | PInf, NInf | NInf, PInf => NaN
  | PInf, _ | _, PInf => PInf
  | NInf, _ | _, NInf => NInf
  end.

(** [a - b] *)
Definition sub (a b : number) : number := add a (neg b).

(** [a * b] *)
Definition mul (a b : number) : number :=
  match a, b with
  | NaN, _ | _, NaN => NaN
  | Fin x, Fin y => Fin (x * y)
  | Fin x, PInf | PInf, Fin x =>
      if is_zero x then NaN else inf_of_sign (is_pos x)
  | Fin x, NInf | NInf, Fin x =>
      if is_zero x then NaN else inf_of_sign (negb (is_pos x))
  | PInf, PInf | NInf, NInf => PInf
  | PInf, NInf | NInf, PInf => NInf
  end.

(** [a / b]; a finite non-zero value over zero is an infinity, of the sign
    of the dividend (the zero of the model has no sign). *)
Definition div (a b : number) : number :=
  match a, b with
  | NaN, _ | _, NaN => NaN
  | Fin x, Fin y =>
      if is_zero y
      then (if is_zero x then NaN else inf_of_sign (is_pos x))
      else Fin (x / y)
  | Fin _, (PInf | NInf) => Fin 0
  | (PInf | NInf), (PInf | NInf) => NaN
  | PInf, Fin y => inf_of_sign (is_pos y || is_zero y)
  | NInf, Fin y => inf_of_sign (negb (is_pos y || is_zero y))
  end.

(** Integer part of a rational, rounded towards zero. *)
Definition trunc (q : Qc) : Z :=
  if decide (0 ≤ q) then Qfloor q else Qceiling q.

(** The remainder of the truncated division, which has the sign of the
    dividend. *)
Definition fmod (x y : Qc) : Qc := x - y * Qc_of_Z (trunc (x / y)).

(** [a % b] *)
Definition rem (a b : number) : number :=
  match a, b with
  | NaN, _ | _, NaN => NaN
  | (PInf | NInf), _ => NaN
  | Fin x, (PInf | NInf) => Fin x
  | Fin x, Fin y => if is_zero y then NaN else Fin (fmod x y)
  end.

(** [a < b] *)
Definition lt (a b : number) : bool :=
  match a, b with
  | NaN, _ | _, NaN => false
  | Fin x, Fin y => bool_decide (x < y)
  | NInf, (Fin _ | PInf) => true
  | Fin _, PInf => true
  | _, _ => false
  end.

(** [a > b] *)
Definition gt (a b : number) : bool := lt b a.

(** [a <= b] *)
Definition le (a b : number) : bool :=
  match a, b with
  | NaN, _ | _, NaN => false
  | Fin x, Fin y => bool_decide (x ≤ y)
  | NInf, _ => true
  | _, PInf => true
  | _, _ => false
  end.

(** [a >= b] *)
Definition ge (a b : number) : bool := le b a.

(** [a == b] and [a === b] on two numbers: NaN differs from itself. *)
Definition eqb (a b : number) : bool :=
  match a, b with
  | NaN, _ | _, NaN => false
  | _, _ => bool_decide (a = b)
  end.

(** [a != b] *)
Definition neqb (a b : number) : bool := negb (eqb a b).

(** [Math.abs] *)
Definition abs (a : number) : number :=
  match a with
  | Fin q => if bool_decide (q < 0) then Fin (- q) else Fin q
  | PInf | NInf => PInf
  | NaN => NaN
  end.

(** [Math.min] of two arguments *)
Definition min (a b : number) : number :=
  match a, b with
  | NaN, _ | _, NaN => NaN
  | _, _ => if lt b a then b else a
  end.

(** [Math.max] of two arguments *)
Definition max (a b : number) : number :=
  match a, b with
  | NaN, _ | _, NaN => NaN
  | _, _ => if lt a b then b else a
  end.

(** [Number.MAX_VALUE], the largest finite double, and [Number.MIN_VALUE],
    the smallest positive double. *)
Definition MAX_VALUE : number :=
  Fin (Qc_of_Z (2 ^ 1024 - 2 ^ 971)).
Definition MIN_VALUE : number :=
  Fin (1 / Qc_of_Z (2 ^ 1074)).

End Number.

Export Number.

Declare Scope number_scope.
Delimit Scope number_scope with num.
Bind Scope number_scope with number.
Infix "+" := add : number_scope.
Infix "-" := sub : number_scope.
Infix "*" := mul : number_scope.
Infix "/" := div : number_scope.
Infix "%%" := rem (at level 40, left associativity) : number_scope.
Notation "- x" := (neg x) : number_scope.
Infix "<?" := lt : number_scope.
Infix ">?" := gt : number_scope.
Infix "<=?" := le : number_scope.
Infix ">=?" := ge : number_scope.
Infix "==?" := eqb (at level 70) : number_scope.
Infix "!=?" := neqb (at level 70) : number_scope.

(** ** Thrown values *)

Inductive exn : Type :=
  | TypeError
  | Thrown (msg : string).

Inductive outcome (A : Type) : Type :=
  | Return (a : A)
  | Throw (e : exn).
Arguments Return {A} a.
Arguments Throw {A} e.

#[global] Instance outcome_ret : MRet outcome := @Return.
#[global] Instance outcome_bind : MBind outcome := λ A B f m,
  match m with
  | Return a => f a
  | Throw e => Throw e
  end.

(** ** Points and groups as values *)

(** A point is the sequence of its components and a group the sequence of
    its points. *)
Definition Pt : Type := list number.
Definition Group : Type := list Pt.

(** [p[i]] in an arithmetic position: a component that is absent reads
    [undefined], which every operator of the source turns into NaN. *)
Definition comp (p : Pt) (i : nat) : number :=
  match p !! i with
  | Some v => v
  | None => NaN
  end.

(** [g[i]] when the point is then indexed: on an absent point that raises
    a TypeError. *)
Definition item (g : Group) (i : nat) : outcome Pt :=
  match g !! i with
  | Some p => Return p
  | None => Throw TypeError
  end.

Notation "p .[ i ]" := (comp p i) (at level 1, left associativity, format "p .[ i ]").

(** ** The point class *)

Module PtClass.

(** Modelled from the spec: [Pt.to], the in-place assignment of the point
    class, which is not part of [Op.ts]: the arguments overwrite the leading
    components of the receiver, as many as both have.  This is the value the
    receiver holds afterwards. *)
Definition to (p : Pt) (args : list number) : Pt :=
  take (length p) args ++ drop (length args) p.

End PtClass.

(** ** class Num *)

Module Num.

Local Open Scope number_scope.

Definition lerp (a b t : number) : number :=
  (int 1 - t) * a + t * b.

Definition boundValue (val min max : number) (positive : bool) : number :=
  let len := abs (max - min) in
  let a := val %% len in
  if a >? max then a - len
  else if a <? min then a + len
  else a.

Definition within (p a b : number) : bool :=
  (p >=? Number.min a b) && (p <=? Number.max a b).

Definition normalizeValue (n a b : number) : number :=
  let min := Number.min a b in
  let max := Number.max a b in
  (n - min) / (max - min).

Definition mapToRange (n currA currB targetA targetB : number) : outcome number :=
  if currA ==? currB
  then Throw (Thrown "[currMin, currMax] must define a range that is not zero")
  else
    let min := Number.min targetA targetB in
    let max := Number.max targetA targetB in
    Return (normalizeValue n currA currB * (max - min) + min).

End Num.

(** ** class Geom *)

Module Geom.

Local Open Scope number_scope.

(** [p.clone().fill(v)] *)
Definition clone_fill (p : Pt) (v : number) : Pt := replicate (length p) v.

(** One pass of the inner loop body of [boundingBox], at component [d] of
    the point [p]. *)
Definition boundingBox_step (p : Pt) (acc : Pt * Pt) (d : nat) : Pt * Pt :=
  let '(minPt, maxPt) := acc in
  let minPt := if p.[d] <? minPt.[d] then <[d := p.[d]]> minPt else minPt in
  let maxPt := if p.[d] >? maxPt.[d] then <[d := p.[d]]> maxPt else maxPt in
  (minPt, maxPt).

(** The inner loop, over the components of one point. *)
Definition boundingBox_pt (acc : Pt * Pt) (p : Pt) : Pt * Pt :=
  foldl (boundingBox_step p) acc (seq 0 (length p)).

Definition boundingBox (pts : Group) : outcome Group :=
  p0 ← item pts 0;
  let minPt := clone_fill p0 MAX_VALUE in
  let maxPt := clone_fill p0 MIN_VALUE in
  let '(minPt, maxPt) := foldl boundingBox_pt (minPt, maxPt) pts in
  Return [minPt; maxPt].

Definition withinBound (pt boundPt1 boundPt2 : Pt) : bool :=
  let len := Nat.min (Nat.min (length pt) (length boundPt1)) (length boundPt2) in
  forallb
    (λ i, (pt.[i] >=? Number.min boundPt1.[i] boundPt2.[i])
          && (pt.[i] <=? Number.max boundPt1.[i] boundPt2.[i]))
    (seq 0 len).

(** [boundValue] is called without its fourth argument, which is then
    [false]. *)
Definition boundAngle (angle : number) : number :=
  Num.boundValue angle (int 0) (int 360) false.

(** [Pt.make(len)] builds a point of [len] components; the loop of
    [interpolate] then assigns every one of them, so the value they start
    from (taken to be 0) is not seen. *)
Definition interpolate (a b : Pt) (t : number) : Pt :=
  let len := Nat.min (length a) (length b) in
  let d := replicate len (int 0) in
  foldl (λ d i, <[i := a.[i] * (int 1 - t) + b.[i] * t]> d) d (seq 0 len).

(** The axis is given by its two indices, [x = axis[0]] and [y = axis[1]],
    both taken inside the point: what an assignment past the end does is
    left to the point class, which [Op.ts] does not show. *)
Definition perpendicular (p : Pt) (x y : nat) : Group :=
  let pa := p in
  let pa := <[x := - p.[y]]> pa in
  let pa := <[y := p.[x]]> pa in
  let pb := p in
  let pb := <[x := p.[y]]> pb in
  let pb := <[y := - p.[x]]> pb in
  [pa; pb].

End Geom.

(** ** class Line *)

Module Intercept.
Record t : Type := Make { slope : number; yi : number; xi : option number }.
End Intercept.

Module Line.

Local Open Scope number_scope.

(** [undefined] is [None]. *)
Definition slope (p1 p2 : Pt) : option number :=
  if (p2.[0] - p1.[0]) ==? int 0 then None
  else Some ((p2.[1] - p1.[1]) / (p2.[0] - p1.[0])).

Definition intercept (p1 p2 : Pt) : option Intercept.t :=
  if (p2.[0] - p1.[0]) ==? int 0 then None
  else
    let m := (p2.[1] - p1.[1]) / (p2.[0] - p1.[0]) in
    let c := p1.[1] - m * p1.[0] in
    Some (Intercept.Make m c (if m ==? int 0 then None else Some (- c / m))).

Definition intersectPath2D (la lb : Group) : outcome (option Pt) :=
  la0 ← item la 0; la1 ← item la 1;
  lb0 ← item lb 0; lb1 ← item lb 1;
  let a := intercept la0 la1 in
  let b := intercept lb0 lb1 in
  let pa := la0 in
  let pb := lb0 in
  match a with
  | None =>
      match b with
      | None => Return None
      | Some b =>
          let y1 := - Intercept.slope b * (pb.[0] - pa.[0]) + pb.[1] in
          Return (Some [pa.[0]; y1])
      end
  | Some a =>
      match b with
      | None =>
          let y1 := - Intercept.slope a * (pa.[0] - pb.[0]) + pa.[1] in
          Return (Some [pb.[0]; y1])
      | Some b =>
          if Intercept.slope b !=? Intercept.slope a then
            let px := (Intercept.slope a * pa.[0] - Intercept.slope b * pb.[0]
                       + pb.[1] - pa.[1])
                      / (Intercept.slope a - Intercept.slope b) in
            let py := Intercept.slope a * (px - pa.[0]) + pa.[1] in
            Return (Some [px; py])
          else if Intercept.yi a ==? Intercept.yi b then
            Return (Some [pa.[0]; pa.[1]])
          else Return None
      end
  end.

Definition intersectLine2D (la lb : Group) : outcome (option Pt) :=
  r ← intersectPath2D la lb;
  match r with
  | None => Return None
  | Some pt =>
      la0 ← item la 0; la1 ← item la 1;
      lb0 ← item lb 0; lb1 ← item lb 1;
      if Geom.withinBound pt la0 la1 && Geom.withinBound pt lb0 lb1
      then Return (Some pt) else Return None
  end.

Definition intersectLineWithPath2D (line path : Group) : outcome (option Pt) :=
  r ← intersectPath2D line path;
  match r with
  | None => Return None
  | Some pt =>
      l0 ← item line 0; l1 ← item line 1;
      if Geom.withinBound pt l0 l1 then Return (Some pt) else Return None
  end.

Definition intersectGrid2D (pt gridPt : Pt) : Group :=
  [ [gridPt.[0]; pt.[1]]; [pt.[0]; gridPt.[1]] ].

(** The count [num] is a natural number; the loop runs [i] from 1 to
    [num] and reads the two ends of the line at each turn, so a line
    that is too short raises only when there is a turn. *)
Definition subpoints (ln : Group) (num : nat) : outcome Group :=
  foldl
    (λ acc i,
       pts ← acc;
       ln0 ← item ln 0; ln1 ← item ln 1;
       let t := int (Z.of_nat i) / (int (Z.of_nat num) + int 1) in
       Return (pts ++ [Geom.interpolate ln0 ln1 t]))
    (Return []) (seq 1 num).

End Line.

(** ** Lines on the doubles of the source

    [intercept] and [intersectPath2D] once more, on binary64 numbers with
    their rounding, where the module [Line] has exact rationals.  [===],
    [==] and [!=] on two numbers are the IEEE comparisons; [a == undefined]
    asks whether [intercept] returned no record. *)

Module Binary64.

Local Open Scope float_scope.

Definition Pt : Type := list float.
Definition Group : Type := list Pt.

(** [p[i]]: an absent component reads [undefined], NaN to the
    operators. *)
Definition comp (p : Pt) (i : nat) : float :=
  match p !! i with
  | Some v => v
  | None => nan
  end.

(** [g[i]] when the point is then indexed. *)
Definition item (g : Group) (i : nat) : outcome Pt :=
  match g !! i with
  | Some p => Return p
  | None => Throw TypeError
  end.

Record Intercept : Type := { slope : float; yi : float; xi : option float }.

Definition intercept (p1 p2 : Pt) : option Intercept :=
  if PrimFloat.eqb (comp p2 0 - comp p1 0) 0 then None
  else
    let m := (comp p2 1 - comp p1 1) / (comp p2 0 - comp p1 0) in
    let c := comp p1 1 - m * comp p1 0 in
    Some {| slope := m; yi := c;
            xi := if PrimFloat.eqb m 0 then None else Some (- c / m) |}.

Definition intersectPath2D (la lb : Group) : outcome (option Pt) :=
  la0 ← item la 0; la1 ← item la 1;
  lb0 ← item lb 0; lb1 ← item lb 1;
  let a := intercept la0 la1 in
  let b := intercept lb0 lb1 in
  let pa := la0 in
  let pb := lb0 in
  match a with
  | None =>
      match b with
      | None => Return None
      | Some b =>
          let y1 := - slope b * (comp pb 0 - comp pa 0) + comp pb 1 in
          Return (Some [comp pa 0; y1])
      end
  | Some a =>
      match b with
      | None =>
          let y1 := - slope a * (comp pa 0 - comp pb 0) + comp pa 1 in
          Return (Some [comp pb 0; y1])
      | Some b =>
          if negb (PrimFloat.eqb (slope b) (slope a)) then
            let px := (slope a * comp pa 0 - slope b * comp pb 0
                       + comp pb 1 - comp pa 1)
                      / (slope a - slope b) in
            let py := slope a * (px - comp pa 0) + comp pa 1 in
            Return (Some [px; py])
          else if PrimFloat.eqb (yi a) (yi b) then
            Return (Some [comp pa 0; comp pa 1])
          else Return None
      end
  end.

End Binary64.

(** ** class Rectangle *)

Module Rectangle.

(** The accessors [p.x] and [p.y] read the components 0 and 1; [clone]
    copies the point, and [to] then writes into the copy. *)
Definition sides (pts : Group) : outcome (list Group) :=
  q0 ← item pts 0;
  let p0 := q0 in
  q1 ← item pts 1;
  let p2 := q1 in
  let p1 := PtClass.to q0 [p0.[0]; p2.[1]] in
  let p3 := PtClass.to q0 [p2.[0]; p0.[1]] in
  Return [ [p0; p1]; [p1; p2]; [p2; p3]; [p3; p0] ].

End Rectangle.

(** ** Points and groups as objects

    For what the operations do to their arguments, points and groups are
    objects in a store and the functions receive references.  A method of
    the point class either writes into its receiver or builds a new
    object; the arithmetic it performs on the components is left to an
    interface. *)

Module Store.

(** References are positions in the store. *)
Notation loc := nat (only parsing).

Inductive obj : Type :=
  | OPt (cs : list number)
  | OGroup (ps : list loc).

Notation heap := (list obj) (only parsing).

(** A computation runs from a store to a store and either returns or
    throws; the store reached is kept in both cases. *)
Definition M (A : Type) : Type := heap → heap * outcome A.

#[global] Instance M_ret : MRet M := λ A a h, (h, Return a).
#[global] Instance M_bind : MBind M := λ A B f m h,
  match m h with
  | (h', Return a) => f a h'
  | (h', Throw e) => (h', Throw e)
  end.

#[global] Instance M_fmap : FMap M := λ A B f m h,
  match m h with
  | (h', Return a) => (h', Return (f a))
  | (h', Throw e) => (h', Throw e)
  end.

Definition throw {A} (e : exn) : M A := λ h, (h, Throw e).

(** A new object takes the first free reference. *)
Definition alloc (o : obj) : M loc := λ h, (h ++ [o], Return (length h)).

Definition load (l : loc) : M obj := λ h,
  (h, match h !! l with Some o => Return o | None => Throw TypeError end).

Definition store (l : loc) (o : obj) : M unit := λ h, (<[l := o]> h, Return ()).

(** The components of the point at [l]; the references of the group at
    [l]. *)
Definition readPt (l : loc) : M (list number) :=
  o ← load l;
  match o with OPt cs => mret cs | OGroup _ => throw TypeError end.

Definition readGroup (l : loc) : M (list loc) :=
  o ← load l;
  match o with OGroup ps => mret ps | OPt _ => throw TypeError end.

(** [g[i]], for a use that then reads the point. *)
Definition group_item (g : loc) (i : nat) : M loc :=
  ps ← readGroup g;
  match ps !! i with Some l => mret l | None => throw TypeError end.

(** [for (x of xs) body(x)] *)
Fixpoint for_each {A} (xs : list A) (body : A → M unit) : M unit :=
  match xs with
  | [] => mret ()
  | x :: xs => body x;; for_each xs body
  end.

(** The values a call returns. *)
Inductive value : Type :=
  | VUndefined
  | VNumber (n : number)
  | VBoolean (b : bool)
  | VRef (l : loc)
  | VIntercept (i : Intercept.t).

(** Modelled from the spec: the arithmetic of the point class [Pt], which
    is not part of [Op.ts]; the specification names the methods (add,
    subtract, cross, project, ...) and leaves their arithmetic to the
    class. *)
Class PtArith : Type := {
  vec_add : list number → list number → list number;
  vec_subtract : list number → list number → list number;
  vec_divide : list number → number → list number;
  vec_cross : list number → list number → list number;
  vec_project : list number → list number → list number;
  vec_equals : list number → list number → bool;
  vec_magnitude : list number → number;
}.

Section operations.

Context `{PtArith}.

Local Open Scope number_scope.

(** *** The point class

    Modelled from the spec: the effects of the methods of [Pt] and [Group],
    which are not part of [Op.ts].  [to], [add], [divide], [fill], the
    indexed assignment and [push] write into their receiver and return it;
    the methods whose name starts with a dollar sign, [make] and the
    constructors build a new object and leave their receiver as it is. *)

(** [Pt.make(n, v)] *)
Definition Pt_make (n : nat) (v : number) : M loc := alloc (OPt (replicate n v)).

(** [new Pt(x, y, ...)] *)
Definition new_Pt (cs : list number) : M loc := alloc (OPt cs).

(** [new Group(p, q, ...)] *)
Definition new_Group (ps : list loc) : M loc := alloc (OGroup ps).

(** [p.to(q)] *)
Definition to (p q : loc) : M loc :=
  cs ← readPt p; qs ← readPt q;
  store p (OPt (PtClass.to cs qs));; mret p.

(** [p.add(q)] *)
Definition add (p q : loc) : M loc :=
  cs ← readPt p; qs ← readPt q;
  store p (OPt (vec_add cs qs));; mret p.

(** [p.divide(n)] *)
Definition divide (p : loc) (n : number) : M loc :=
  cs ← readPt p;
  store p (OPt (vec_divide cs n));; mret p.

(** [p[i] = v] *)
Definition set_comp (p : loc) (i : nat) (v : number) : M unit :=
  cs ← readPt p;
  store p (OPt (<[i := v]> cs)).

(** [g.push(p)] *)
Definition push (g p : loc) : M unit :=
  ps ← readGroup g;
  store g (OGroup (ps ++ [p])).

(** [p.$subtract(q)] *)
Definition subtract_new (p q : loc) : M loc :=
  cs ← readPt p; qs ← readPt q; alloc (OPt (vec_subtract cs qs)).

(** [p.$add(q)] *)
Definition add_new (p q : loc) : M loc :=
  cs ← readPt p; qs ← readPt q; alloc (OPt (vec_add cs qs)).

(** [p.$cross(q)] *)
Definition cross_new (p q : loc) : M loc :=
  cs ← readPt p; qs ← readPt q; alloc (OPt (vec_cross cs qs)).

(** [p.$project(q)] *)
Definition project_new (p q : loc) : M loc :=
  cs ← readPt p; qs ← readPt q; alloc (OPt (vec_project cs qs)).

(** [p.equals(q)] *)
Definition equals (p q : loc) : M bool :=
  cs ← readPt p; qs ← readPt q; mret (vec_equals cs qs).

(** [p.magnitude()] *)
Definition magnitude (p : loc) : M number :=
  cs ← readPt p; mret (vec_magnitude cs).

(** *** class Num *)

Definition sum (pts : loc) : M loc :=
  p0 ← group_item pts 0;
  cs0 ← readPt p0;
  c ← Pt_make (length cs0) (int 0);
  ps ← readGroup pts;
  for_each (seq 0 (length ps)) (λ i, pi ← group_item pts i; add c pi;; mret ());;
  mret c.

Definition average (pts : loc) : M loc :=
  c ← sum pts;
  ps ← readGroup pts;
  divide c (int (Z.of_nat (length ps))).

(** *** class Geom *)

Definition interpolate (a b : loc) (t : number) : M loc :=
  acs ← readPt a; bcs ← readPt b;
  let len := Nat.min (length acs) (length bcs) in
  d ← Pt_make len (int 0);
  for_each (seq 0 len) (λ i,
    acs ← readPt a; bcs ← readPt b;
    set_comp d i (acs.[i] * (int 1 - t) + bcs.[i] * t));;
  mret d.

Definition withinBound (pt boundPt1 boundPt2 : loc) : M bool :=
  cs ← readPt pt; b1 ← readPt boundPt1; b2 ← readPt boundPt2;
  mret (Geom.withinBound cs b1 b2).

(** *** class Line *)

Definition slope (p1 p2 : loc) : M (option number) :=
  cs2 ← readPt p2; cs1 ← readPt p1;
  mret (Line.slope cs1 cs2).

Definition intercept (p1 p2 : loc) : M (option Intercept.t) :=
  cs2 ← readPt p2; cs1 ← readPt p1;
  mret (Line.intercept cs1 cs2).

Definition collinear (p1 p2 p3 : loc) : M bool :=
  a0 ← new_Pt [int 0; int 0; int 0];
  a0 ← to a0 p2;
  a ← subtract_new a0 p1;
  b0 ← new_Pt [int 0; int 0; int 0];
  b0 ← to b0 p1;
  b ← subtract_new b0 p3;
  c ← cross_new a b;
  z ← new_Pt [int 0; int 0; int 0];
  equals c z.

Definition perpendicularFromPt (pt ln : loc) (asProjection : bool) : M loc :=
  ln0 ← group_item ln 0; ln1 ← group_item ln 1;
  a ← subtract_new ln0 ln1;
  ln1 ← group_item ln 1;
  b ← subtract_new ln1 pt;
  pr ← project_new a b;
  proj ← subtract_new b pr;
  if asProjection then mret proj else add_new proj pt.

Definition distanceFromPt (pt ln : loc) (asProjection : bool) : M number :=
  proj ← perpendicularFromPt pt ln true;
  magnitude proj.

Definition intersectPath2D (la lb : loc) : M (option loc) :=
  la0 ← group_item la 0; la1 ← group_item la 1;
  a ← intercept la0 la1;
  lb0 ← group_item lb 0; lb1 ← group_item lb 1;
  b ← intercept lb0 lb1;
  pa ← group_item la 0;
  pb ← group_item lb 0;
  pa ← readPt pa;
  pb ← readPt pb;
  match a with
  | None =>
      match b with
      | None => mret None
      | Some b =>
          let y1 := - Intercept.slope b * (pb.[0] - pa.[0]) + pb.[1] in
          Some <$> new_Pt [pa.[0]; y1]
      end
  | Some a =>
      match b with
      | None =>
          let y1 := - Intercept.slope a * (pa.[0] - pb.[0]) + pa.[1] in
          Some <$> new_Pt [pb.[0]; y1]
      | Some b =>
          if Intercept.slope b !=? Intercept.slope a then
            let px := (Intercept.slope a * pa.[0] - Intercept.slope b * pb.[0]
                       + pb.[1] - pa.[1])
                      / (Intercept.slope a - Intercept.slope b) in
            let py := Intercept.slope a * (px - pa.[0]) + pa.[1] in
            Some <$> new_Pt [px; py]
          else if Intercept.yi a ==? Intercept.yi b then
            Some <$> new_Pt [pa.[0]; pa.[1]]
          else mret None
      end
  end.

Definition intersectLine2D (la lb : loc) : M (option loc) :=
  r ← intersectPath2D la lb;
  match r with
  | None => mret None
  | Some pt =>
      la0 ← group_item la 0; la1 ← group_item la 1;
      inA ← withinBound pt la0 la1;
      if (inA : bool) then
        lb0 ← group_item lb 0; lb1 ← group_item lb 1;
        inB ← withinBound pt lb0 lb1;
        mret (if (inB : bool) then Some pt else None)
      else mret None
  end.

Definition intersectLineWithPath2D (line path : loc) : M (option loc) :=
  r ← intersectPath2D line path;
  match r with
  | None => mret None
  | Some pt =>
      l0 ← group_item line 0; l1 ← group_item line 1;
      inside ← withinBound pt l0 l1;
      mret (if (inside : bool) then Some pt else None)
  end.

Definition intersectGrid2D (pt gridPt : loc) : M loc :=
  g ← readPt gridPt; p ← readPt pt;
  h ← new_Pt [g.[0]; p.[1]];
  v ← new_Pt [p.[0]; g.[1]];
  new_Group [h; v].

Definition subpoints (ln : loc) (num : nat) : M loc :=
  pts ← new_Group [];
  for_each (seq 1 num) (λ i,
    ln0 ← group_item ln 0; ln1 ← group_item ln 1;
    d ← interpolate ln0 ln1 (int (Z.of_nat i) / (int (Z.of_nat num) + int 1));
    push pts d);;
  mret pts.

(** *** The calls of the two classes that receive points or groups *)

Inductive call : Type :=
  | Sum (pts : loc)
  | Average (pts : loc)
  | Slope (p1 p2 : loc)
  | Intercept_ (p1 p2 : loc)
  | Collinear (p1 p2 p3 : loc)
  | PerpendicularFromPt (pt ln : loc) (asProjection : bool)
  | DistanceFromPt (pt ln : loc) (asProjection : bool)
  | IntersectPath2D (la lb : loc)
  | IntersectLine2D (la lb : loc)
  | IntersectLineWithPath2D (line path : loc)
  | IntersectGrid2D (pt gridPt : loc)
  | Subpoints (ln : loc) (num : nat).

Definition of_option {A} (f : A → value) (o : option A) : value :=
  match o with Some a => f a | None => VUndefined end.

Definition run (c : call) : M value :=
  match c with
  | Sum pts => VRef <$> sum pts
  | Average pts => VRef <$> average pts
  | Slope p1 p2 => of_option VNumber <$> slope p1 p2
  | Intercept_ p1 p2 => of_option VIntercept <$> intercept p1 p2
  | Collinear p1 p2 p3 => VBoolean <$> collinear p1 p2 p3
  | PerpendicularFromPt pt ln asProjection =>
      VRef <$> perpendicularFromPt pt ln asProjection
  | DistanceFromPt pt ln asProjection =>
      VNumber <$> distanceFromPt pt ln asProjection
  | IntersectPath2D la lb => of_option VRef <$> intersectPath2D la lb
  | IntersectLine2D la lb => of_option VRef <$> intersectLine2D la lb
  | IntersectLineWithPath2D line path =>
      of_option VRef <$> intersectLineWithPath2D line path
  | IntersectGrid2D pt gridPt => VRef <$> intersectGrid2D pt gridPt
  | Subpoints ln num => VRef <$> subpoints ln num
  end.

End operations.

(** *** What a computation may do to the store *)

(** [keeps n h h']: the store [h'] has at least the objects of [h], and
    those below the reference [n] are the same. *)
Definition keeps (n : nat) (h h' : heap) : Prop :=
  length h ≤ length h' ∧ ∀ l, l < n → h' !! l = h !! l.

(** [safe n m Q]: from any store holding at least [n] objects, [m] leaves
    the objects below [n] as they are, whether it returns or throws, and a
    value it returns satisfies [Q]. *)
Definition safe {A} (n : nat) (m : M A) (Q : A → Prop) : Prop :=
  ∀ h, n ≤ length h →
    keeps n h (m h).1 ∧
    match (m h).2 with Return a => Q a | Throw _ => True end.

(** A point returned by one of the intersections is a new object. *)
Definition new_or_undefined (n : nat) (r : option nat) : Prop :=
  match r with Some l => n ≤ l | None => True end.

(** A reference returned by a call is a new object. *)
Definition new_ref (n : nat) (v : value) : Prop :=
  match v with VRef l => n ≤ l | _ => True end.

End Store.

(** * Vocabulary of the statements *)

(** Concrete values are compared by the decision procedure of equality:
    two rationals that are equal need not be convertible. *)
Ltac by_eval := apply (bool_decide_eq_true_1 _); vm_compute; reflexivity.

(** An order statement on canonical rationals becomes one on plain
    rationals, where linear arithmetic decides it. *)
Ltac Qc_to_Q :=
  unfold Qclt, Qcle, Qcminus, Qcdiv in *;
  cbn [this Qcplus Qcopp Qcmult Qcinv Q2Qc Qc_of_Z] in *;
  rewrite ?Qred_correct in *.

#[global] Instance exn_eq_dec : EqDecision exn.
Proof. solve_decision. Defined.
#[global] Instance outcome_eq_dec `{EqDecision A} : EqDecision (outcome A).
Proof. solve_decision. Defined.

Section vocabulary.

Local Open Scope Qc_scope.

(** A point of two integer coordinates. *)
Definition pt2 (x y : Z) : Pt := [int x; int y].

(** The value of [boundValue(v, 0, max)] for a positive [max]: the
    remainder of [v] by [max], moved up by [max] when it is negative. *)
Definition wrap0 (v mx : Qc) : Qc :=
  if decide (fmod v mx < 0) then fmod v mx + mx else fmod v mx.

(** The smaller and the larger of two rationals, as [Math.min] and
    [Math.max] choose them. *)
Definition qmin (x y : Qc) : Qc := if decide (y < x) then y else x.
Definition qmax (x y : Qc) : Qc := if decide (x < y) then y else x.

(** Slope and y-intercept of the line through [(x0, y0)] and [(x1, y1)],
    as rationals. *)
Definition slopeQ (x0 y0 x1 y1 : Qc) : Qc := (y1 - y0) / (x1 - x0).
Definition yiQ (x0 y0 x1 y1 : Qc) : Qc := y0 - slopeQ x0 y0 x1 y1 * x0.

(** The five cases of [intersectPath2D] on two lines of finite
    coordinates, in the order in which the source tests them. *)
Definition intersectPath2D_cases (ax0 ay0 ax1 ay1 bx0 by0 bx1 by1 : Qc) : option Pt :=
  let ma := slopeQ ax0 ay0 ax1 ay1 in
  let mb := slopeQ bx0 by0 bx1 by1 in
  if decide (ax1 = ax0) then
    if decide (bx1 = bx0) then None
    else Some [Fin ax0; Fin (- mb * (bx0 - ax0) + by0)]
  else if decide (bx1 = bx0) then
    Some [Fin bx0; Fin (- ma * (ax0 - bx0) + ay0)]
  else if decide (mb = ma) then
    if decide (yiQ ax0 ay0 ax1 ay1 = yiQ bx0 by0 bx1 by1)
    then Some [Fin ax0; Fin ay0]
    else None
  else
    let px := (ma * ax0 - mb * bx0 + by0 - ay0) / (ma - mb) in
    Some [Fin px; Fin (ma * (px - ax0) + ay0)].

(** Two lines are coincident for [intersectPath2D] when neither is
    vertical and they have the same slope and the same y-intercept. *)
Definition coincident (ax0 ay0 ax1 ay1 bx0 by0 bx1 by1 : Qc) : Prop :=
  ax1 ≠ ax0 ∧ bx1 ≠ bx0
  ∧ slopeQ ax0 ay0 ax1 ay1 = slopeQ bx0 by0 bx1 by1
  ∧ yiQ ax0 ay0 ax1 ay1 = yiQ bx0 by0 bx1 by1.

(** [above_MIN_VALUE p]: no component of the point [p] is below
    [Number.MIN_VALUE]. *)
Definition above_MIN_VALUE (p : Pt) : Prop :=
  Forall (λ v, (MIN_VALUE <=? v)%num = true) p.

(** The four sides of the rectangle whose diagonal corners are [tl]
    (top left) and [br] (bottom right), each by the coordinates of its two
    ends: the top side lies at the y of [tl], the right side at the x of
    [br], the bottom side at the y of [br] and the left side at the x of
    [tl]. *)
Inductive side : Type := Top | Right | Bottom | Left.

Definition xy (p : Pt) : number * number := (p.[0], p.[1]).

Definition edge (s : side) (tl br : Pt) : (number * number) * (number * number) :=
  match s with
  | Top => ((tl.[0], tl.[1]), (br.[0], tl.[1]))
  | Right => ((br.[0], tl.[1]), (br.[0], br.[1]))
  | Bottom => ((br.[0], br.[1]), (tl.[0], br.[1]))
  | Left => ((tl.[0], br.[1]), (tl.[0], tl.[1]))
  end.

(** A segment is a given side when its two ends are the ends of that side,
    in either direction. *)
Definition is_side (tl br : Pt) (s : side) (seg : Group) : Prop :=
  match seg with
  | [p; q] => (xy p, xy q) = edge s tl br ∨ (xy q, xy p) = edge s tl br
  | _ => False
  end.

#[global] Instance is_side_dec tl br s seg : Decision (is_side tl br s seg).
Proof. unfold is_side. destruct seg as [|? [|? [|? ?]]]; apply _. Defined.

(** [sides] returns its segments in the order [order]. *)
Definition sides_in_order (order : list side) (tl br : Pt) : Prop :=
  ∃ segs, Rectangle.sides [tl; br] = Return segs
          ∧ Forall2 (is_side tl br) order segs.

(** The four corners of that rectangle, by their coordinates. *)
Inductive corner : Type := TopLeft | TopRight | BottomRight | BottomLeft.

Definition corner_xy (c : corner) (tl br : Pt) : number * number :=
  match c with
  | TopLeft => (tl.[0], tl.[1])
  | TopRight => (br.[0], tl.[1])
  | BottomRight => (br.[0], br.[1])
  | BottomLeft => (tl.[0], br.[1])
  end.

(** A segment runs from one corner to another: its first point is at the
    first corner and its second point at the second, in this direction
    only. *)
Definition runs_from_to (tl br : Pt) (c : corner * corner) (seg : Group) : Prop :=
  match seg with
  | [p; q] => xy p = corner_xy c.1 tl br ∧ xy q = corner_xy c.2 tl br
  | _ => False
  end.

#[global] Instance runs_from_to_dec tl br c seg : Decision (runs_from_to tl br c seg).
Proof. unfold runs_from_to. destruct seg as [|? [|? [|? ?]]]; apply _. Defined.

(** [sides] returns segments that run between the corners as [walk]
    lists them. *)
Definition sides_walk (walk : list (corner * corner)) (tl br : Pt) : Prop :=
  ∃ segs, Rectangle.sides [tl; br] = Return segs
          ∧ Forall2 (runs_from_to tl br) walk segs.

(** The two doubles from which [boundingBox] starts, as rationals. *)
Definition MAXQ : Qc := Qc_of_Z (2 ^ 1024 - 2 ^ 971).
Definition MINQ : Qc := 1 / Qc_of_Z (2 ^ 1074).

(** A point of finite components. *)
Definition finite_pt (qs : list Qc) : Pt := Fin <$> qs.

(** The components of index [d] of the points that have one, in order. *)
Definition column (d : nat) (qss : list (list Qc)) : list Qc :=
  omap (λ qs, qs !! d) qss.

(** The least and the greatest of a start value and a list of values. *)
Definition least (init : Qc) (col : list Qc) : Qc :=
  foldl (λ m q, if decide (q < m) then q else m) init col.
Definition greatest (init : Qc) (col : list Qc) : Qc :=
  foldl (λ m q, if decide (m < q) then q else m) init col.

(** What one point [qs] makes of the component [m] of index [d] kept so
    far. *)
Definition keep_least (qs : list Qc) (d : nat) (m : Qc) : Qc :=
  match qs !! d with
  | Some q => if decide (q < m) then q else m
  | None => m
  end.
Definition keep_greatest (qs : list Qc) (d : nat) (m : Qc) : Qc :=
  match qs !! d with
  | Some q => if decide (m < q) then q else m
  | None => m
  end.

(** [m] is the least, [M] the greatest value of a list. *)
Definition is_least (m : Qc) (col : list Qc) : Prop :=
  m ∈ col ∧ ∀ q, q ∈ col → m ≤ q.
Definition is_greatest (M : Qc) (col : list Qc) : Prop :=
  M ∈ col ∧ ∀ q, q ∈ col → q ≤ M.

(** The scalar product of two points in the plane of the components [x]
    and [y]. *)
Definition dot_in_plane (x y : nat) (p q : list Qc) : option Qc :=
  px ← p !! x; py ← p !! y; qx ← q !! x; qy ← q !! y;
  Some (px * qx + py * qy).

(** The point [(px, py)] lies on the line through [(x0, y0)] and
    [(x1, y1)]; two lines have the same direction. *)
Definition on_line (x0 y0 x1 y1 px py : Qc) : Prop :=
  (px - x0) * (y1 - y0) = (py - y0) * (x1 - x0).


(** [p] lies between [a] and [b], in whichever order they are. *)
Definition inside (a b p : Qc) : Prop := qmin a b ≤ p ∧ p ≤ qmax a b.

End vocabulary.

(** * Properties *)

(** ** The operators on finite numbers *)

Section finite.

Local Open Scope Qc_scope.

Lemma Qcminus_eq_0 (x y : Qc) : x - y = 0 ↔ x = y.
Proof.
  split; [|intros ->; ring].
  intros H. transitivity (x - y + y); [ring|]. rewrite H. ring.
Qed.

Lemma int_0 : int 0 = Fin 0.
Proof. unfold int. f_equal. by apply Qc_is_canon. Qed.

Lemma int_1 : int 1 = Fin 1.
Proof. unfold int. f_equal. by apply Qc_is_canon. Qed.

Lemma eqb_Fin (x y : Qc) : (Fin x ==? Fin y)%num = bool_decide (x = y).
Proof. unfold eqb. apply bool_decide_ext. split; congruence. Qed.

Lemma neqb_Fin (x y : Qc) : (Fin x !=? Fin y)%num = bool_decide (x ≠ y).
Proof.
  unfold neqb. rewrite eqb_Fin. by repeat case_bool_decide.
Qed.

Lemma sub_Fin (x y : Qc) : (Fin x - Fin y)%num = Fin (x - y).
Proof. reflexivity. Qed.

Lemma add_Fin (x y : Qc) : (Fin x + Fin y)%num = Fin (x + y).
Proof. reflexivity. Qed.

Lemma mul_Fin (x y : Qc) : (Fin x * Fin y)%num = Fin (x * y).
Proof. reflexivity. Qed.

Lemma neg_Fin (x : Qc) : (- Fin x)%num = Fin (- x).
Proof. reflexivity. Qed.

Lemma div_Fin (x y : Qc) : y ≠ 0 → (Fin x / Fin y)%num = Fin (x / y).
Proof. intros H. unfold div, is_zero. by rewrite bool_decide_eq_false_2. Qed.

Lemma min_Fin (x y : Qc) : Number.min (Fin x) (Fin y) = Fin (qmin x y).
Proof. unfold Number.min, qmin, lt. by case_bool_decide; case_decide. Qed.

Lemma max_Fin (x y : Qc) : Number.max (Fin x) (Fin y) = Fin (qmax x y).
Proof. unfold Number.max, qmax, lt. by case_bool_decide; case_decide. Qed.

Lemma qmax_qmin_ne (x y : Qc) : x ≠ y → qmax x y - qmin x y ≠ 0.
Proof.
  intros Hne. rewrite Qcminus_eq_0. unfold qmax, qmin.
  destruct (decide (x < y)) as [Hlt|Hge], (decide (y < x)) as [Hgt|Hle];
    try congruence; intros _.
  - by apply (Qclt_not_le _ _ Hlt), Qclt_le_weak.
  - apply Hne, (anti_symm Qcle); by apply Qcle_ngt.
Qed.

End finite.

Create Rewrite HintDb fin.
#[local] Hint Rewrite add_Fin sub_Fin mul_Fin neg_Fin int_0 int_1 eqb_Fin neqb_Fin
  min_Fin max_Fin : fin.

(** ** Num *)

Section num_properties.

Local Open Scope Qc_scope.

(** *** The remainder and the wrap from zero *)

Lemma Qc_of_Z_plus (a b : Z) : Qc_of_Z (a + b) = Qc_of_Z a + Qc_of_Z b.
Proof. apply Qc_is_canon. Qc_to_Q. by rewrite inject_Z_plus. Qed.

Lemma Qc_of_Z_opp (a : Z) : Qc_of_Z (- a) = - Qc_of_Z a.
Proof. apply Qc_is_canon. Qc_to_Q. by rewrite inject_Z_opp. Qed.

Lemma trunc_frac_nonneg (q : Qc) :
  0 ≤ q → 0 ≤ q - Qc_of_Z (trunc q) ∧ q - Qc_of_Z (trunc q) < 1.
Proof.
  intros Hq. unfold trunc. case_decide; [|done].
  pose proof (Qfloor_le q) as H1. pose proof (Qlt_floor q) as H2.
  rewrite inject_Z_plus in H2. change (inject_Z 1) with 1%Q in H2.
  Qc_to_Q. split; lra.
Qed.

Lemma trunc_frac_neg (q : Qc) :
  q < 0 → -1 < q - Qc_of_Z (trunc q) ∧ q - Qc_of_Z (trunc q) ≤ 0.
Proof.
  intros Hq. unfold trunc. case_decide as H0; [by apply Qclt_not_le in Hq|].
  pose proof (Qle_ceiling q) as H1. pose proof (Qceiling_lt q) as H2.
  unfold Z.sub in H2. rewrite inject_Z_plus, inject_Z_opp in H2.
  change (inject_Z 1) with 1%Q in H2.
  Qc_to_Q. split; lra.
Qed.

Lemma trunc_frac (q : Qc) :
  -1 < q - Qc_of_Z (trunc q) ∧ q - Qc_of_Z (trunc q) < 1.
Proof.
  destruct (Qclt_le_dec q 0) as [Hq|Hq].
  - destruct (trunc_frac_neg q Hq) as [H1 H2]. split; [done|].
    Qc_to_Q. lra.
  - destruct (trunc_frac_nonneg q Hq) as [H1 H2]. split; [|done].
    Qc_to_Q. lra.
Qed.

Lemma Qclt_0_ne (y : Qc) : 0 < y → y ≠ 0.
Proof. intros Hy ->. by apply (Qclt_not_eq 0 0). Qed.

Lemma fmod_eq (x y : Qc) :
  y ≠ 0 → fmod x y = y * (x / y - Qc_of_Z (trunc (x / y))).
Proof. intros. unfold fmod. by field. Qed.

Lemma scale_bounds (y f : Qc) :
  0 < y → -1 < f → f < 1 → - y < y * f ∧ y * f < y.
Proof. intros. Qc_to_Q. split; nra. Qed.

(** The remainder by a positive [y] lies strictly between [-y] and [y]. *)
Lemma fmod_bounds (x y : Qc) : 0 < y → - y < fmod x y ∧ fmod x y < y.
Proof.
  intros Hy. rewrite fmod_eq by by apply Qclt_0_ne.
  destruct (trunc_frac (x / y)). by apply scale_bounds.
Qed.

Lemma wrap0_range (v mx : Qc) : 0 < mx → 0 ≤ wrap0 v mx ∧ wrap0 v mx < mx.
Proof.
  intros Hmx. unfold wrap0. destruct (fmod_bounds v mx Hmx) as [H1 H2].
  case_decide as H0.
  - Qc_to_Q. split; lra.
  - split; [by apply Qcnot_lt_le|done].
Qed.

Lemma wrap0_congruent (v mx : Qc) : ∃ j : Z, wrap0 v mx = v - mx * Qc_of_Z j.
Proof.
  unfold wrap0, fmod. case_decide.
  - exists (trunc (v / mx) - 1)%Z. unfold Z.sub.
    rewrite Qc_of_Z_plus, Qc_of_Z_opp.
    replace (Qc_of_Z 1) with 1 by by apply Qc_is_canon. ring.
  - by eexists.
Qed.

Lemma small_multiple (y : Qc) (j : Z) :
  0 < y → - y < y * Qc_of_Z j → y * Qc_of_Z j < y → j = 0%Z.
Proof.
  intros Hy H1 H2.
  assert (-1 < inject_Z j ∧ inject_Z j < 1)%Q as [Hlo Hhi].
  { Qc_to_Q. split; nra. }
  change (-1)%Q with (inject_Z (-1)) in Hlo. change 1%Q with (inject_Z 1) in Hhi.
  rewrite <-Zlt_Qlt in Hlo, Hhi. lia.
Qed.

(** Two values of [[0, y)] that differ by a multiple of [y] are equal. *)
Lemma wrap_unique (y r1 r2 : Qc) (j : Z) :
  0 < y → 0 ≤ r1 → r1 < y → 0 ≤ r2 → r2 < y →
  r1 - r2 = y * Qc_of_Z j → r1 = r2.
Proof.
  intros Hy ? ? ? ? Hj.
  assert (j = 0%Z) as ->.
  { apply (small_multiple y); [done| |]; rewrite <-Hj; Qc_to_Q; lra. }
  replace (Qc_of_Z 0) with 0 in Hj by by apply Qc_is_canon.
  transitivity (r1 - r2 + r2); [ring|]. rewrite Hj. ring.
Qed.

Lemma wrap0_periodic (v mx : Qc) (k : Z) :
  0 < mx → wrap0 (v + Qc_of_Z k * mx) mx = wrap0 v mx.
Proof.
  intros Hmx.
  destruct (wrap0_range (v + Qc_of_Z k * mx) mx Hmx) as [? ?].
  destruct (wrap0_range v mx Hmx) as [? ?].
  destruct (wrap0_congruent (v + Qc_of_Z k * mx) mx) as [j1 Hj1].
  destruct (wrap0_congruent v mx) as [j2 Hj2].
  apply (wrap_unique mx _ _ (k + - j1 + j2)%Z); try done.
  rewrite Hj1, Hj2, !Qc_of_Z_plus, Qc_of_Z_opp. ring.
Qed.

(** *** boundValue *)

(** With [min = 0], as [boundAngle] and [boundRadian] call it,
    [boundValue] is the wrap from zero. *)
Lemma boundValue_zero_min (v mx : Qc) (positive : bool) :
  0 < mx → Num.boundValue (Fin v) (Fin 0) (Fin mx) positive = Fin (wrap0 v mx).
Proof.
  intros Hmx. unfold Num.boundValue, wrap0.
  rewrite sub_Fin. replace (mx - 0) with mx by ring.
  assert (abs (Fin mx) = Fin mx) as ->.
  { unfold abs. case_bool_decide as H; [|done].
    exfalso. apply (Qclt_not_le _ _ H). by apply Qclt_le_weak. }
  unfold rem, is_zero. rewrite bool_decide_eq_false_2 by by apply Qclt_0_ne.
  destruct (fmod_bounds v mx Hmx) as [Hlo Hhi].
  unfold gt, lt. rewrite bool_decide_eq_false_2
    by (apply Qcle_not_lt; by apply Qclt_le_weak).
  by case_bool_decide; case_decide.
Qed.

(** X11. With [min = 0] and a finite positive [max], [boundValue] of a
    finite value lies in [[0, max)]. *)
Lemma boundValue_zero_min_range (v mx : Qc) (positive : bool) :
  0 < mx →
  ∃ r, Num.boundValue (Fin v) (Fin 0) (Fin mx) positive = Fin r ∧ 0 ≤ r ∧ r < mx.
Proof.
  intros Hmx. exists (wrap0 v mx).
  split; [by apply boundValue_zero_min|by apply wrap0_range].
Qed.

(** X12. With [min = 0] and a finite positive [max], [boundValue] has
    the period [max - min]: adding a whole number of periods to a finite
    value does not change the result. *)
Lemma boundValue_zero_min_periodic (v mx : Qc) (k : Z) (positive : bool) :
  0 < mx →
  Num.boundValue (Fin v + int k * (Fin mx - Fin 0)) (Fin 0) (Fin mx) positive
  = Num.boundValue (Fin v) (Fin 0) (Fin mx) positive.
Proof.
  intros Hmx. unfold int. autorewrite with fin.
  replace (mx - 0) with mx by ring.
  by rewrite !boundValue_zero_min, wrap0_periodic.
Qed.

Example boundAngle_370 :
  Num.boundValue (int 370) (int 0) (int 360) false = int 10.
Proof. by_eval. Qed.

(** C3.  The period is lost when [min] is not zero: with [min = 5] and
    [max = 10] the value [-2] goes to 3 and the value [-2 + 1 * (10 - 5)],
    one period further, goes to 8. *)
Theorem boundValue_not_periodic :
  Num.boundValue (int (-2)) (int 5) (int 10) false = int 3
  ∧ Num.boundValue (int (-2) + int 1 * (int 10 - int 5)) (int 5) (int 10) false
    = int 8.
Proof. split; by_eval. Qed.

(** C4.  The result leaves the interval when [min] is not zero: with
    [min = 5] and [max = 10] the value [-2] goes to 3, which is below
    [min]; and with [min = -5] and [max = 5] the value 5, equal to [max],
    is returned as it is and not pulled back to [min]. *)
Theorem boundValue_outside_range :
  Num.boundValue (int (-2)) (int 5) (int 10) false = int 3
  ∧ (int 3 <? int 5)%num = true
  ∧ Num.boundValue (int 5) (int (-5)) (int 5) false = int 5.
Proof. split; [by_eval|]. split; [by vm_compute|by_eval]. Qed.

(** C10. The fourth parameter [positive] of [boundValue] has no effect on
    the result: for all values, bounds included, the call with [true]
    returns what the call with [false] returns. *)
Theorem boundValue_positive_unused (val min max : number) :
  Num.boundValue val min max true = Num.boundValue val min max false.
Proof. reflexivity. Qed.

(** C7. On finite arguments [mapToRange] throws its message exactly when
    [currA] equals [currB]; otherwise it returns, and what it returns is a
    finite number, the value of [n] carried from the current range to the
    target range, and not NaN. *)
Theorem mapToRange_throws_iff_zero_range (n currA currB targetA targetB : Qc) :
  Num.mapToRange (Fin n) (Fin currA) (Fin currB) (Fin targetA) (Fin targetB) =
    if decide (currA = currB)
    then Throw (Thrown "[currMin, currMax] must define a range that is not zero")
    else Return (Fin ((n - qmin currA currB) / (qmax currA currB - qmin currA currB)
                      * (qmax targetA targetB - qmin targetA targetB)
                      + qmin targetA targetB)).
Proof.
  unfold Num.mapToRange, Num.normalizeValue. rewrite eqb_Fin.
  case_bool_decide; case_decide; try done.
  rewrite !min_Fin, !max_Fin, !sub_Fin.
  by rewrite div_Fin by by apply qmax_qmin_ne.
Qed.

End num_properties.

(** ** Line *)

Section line_properties.

Local Open Scope Qc_scope.

Lemma slope_Fin (x0 y0 x1 y1 : Qc) (r0 r1 : Pt) :
  Line.slope (Fin x0 :: Fin y0 :: r0) (Fin x1 :: Fin y1 :: r1) =
    if decide (x1 = x0) then None else Some (Fin (slopeQ x0 y0 x1 y1)).
Proof.
  unfold Line.slope, slopeQ. cbn [comp lookup list_lookup].
  rewrite !sub_Fin, int_0, eqb_Fin.
  case_bool_decide as H; rewrite Qcminus_eq_0 in H; case_decide; try done.
  by rewrite div_Fin by by rewrite Qcminus_eq_0.
Qed.

Lemma intercept_Fin (x0 y0 x1 y1 : Qc) (r0 r1 : Pt) :
  Line.intercept (Fin x0 :: Fin y0 :: r0) (Fin x1 :: Fin y1 :: r1) =
    if decide (x1 = x0) then None
    else
      let m := slopeQ x0 y0 x1 y1 in
      let c := yiQ x0 y0 x1 y1 in
      Some (Intercept.Make (Fin m) (Fin c)
              (if decide (m = 0) then None else Some (Fin (- c / m)))).
Proof.
  unfold Line.intercept, yiQ, slopeQ. cbn [comp lookup list_lookup].
  rewrite !sub_Fin, !int_0, eqb_Fin.
  case_bool_decide as H; rewrite Qcminus_eq_0 in H; case_decide; try done.
  rewrite div_Fin by by rewrite Qcminus_eq_0.
  cbn [mul sub add neg]. rewrite eqb_Fin.
  case_bool_decide; case_decide; try done.
  by rewrite div_Fin.
Qed.

Lemma intersectPath2D_Fin
    (ax0 ay0 ax1 ay1 bx0 by0 bx1 by1 : Qc) (ra0 ra1 rb0 rb1 : Pt) (la lb : Group) :
  Line.intersectPath2D
    ((Fin ax0 :: Fin ay0 :: ra0) :: (Fin ax1 :: Fin ay1 :: ra1) :: la)
    ((Fin bx0 :: Fin by0 :: rb0) :: (Fin bx1 :: Fin by1 :: rb1) :: lb) =
  Return (intersectPath2D_cases ax0 ay0 ax1 ay1 bx0 by0 bx1 by1).
Proof.
  unfold Line.intersectPath2D, intersectPath2D_cases.
  cbn [item lookup list_lookup mbind outcome_bind]. rewrite !intercept_Fin.
  repeat case_decide; try done; cbn [Intercept.slope Intercept.yi comp lookup list_lookup].
  - rewrite neqb_Fin, eqb_Fin. by repeat case_bool_decide.
  - rewrite neqb_Fin, eqb_Fin. by repeat case_bool_decide.
  - rewrite neqb_Fin. case_bool_decide; [|done].
    autorewrite with fin. by rewrite div_Fin by by rewrite Qcminus_eq_0.
Qed.

(** The test of [slope] and [intercept], [x2 - x1 === 0], holds exactly
    when the two x are finite and equal. *)
Lemma x_difference_zero (a b : number) :
  (b - a ==? int 0)%num = true ↔ ∃ x, a = Fin x ∧ b = Fin x.
Proof.
  destruct a as [x| | |], b as [y| | |];
    try by (split; [intros [=]|intros (? & [=] & [=])]).
  rewrite sub_Fin, int_0, eqb_Fin, bool_decide_eq_true, Qcminus_eq_0.
  split; [intros ->; by exists x|intros (? & [= ->] & [= ->]); done].
Qed.

(** C6, as the claim states it, fails: for two points whose x are both
    plus infinity, [x2 == x1] holds, and yet [slope] is the number NaN and
    not [undefined], because the difference of the two x is NaN and not
    0. *)
Lemma slope_at_infinite_x :
  (PInf ==? PInf)%num = true
  ∧ Line.slope [PInf; int 0] [PInf; int 1] = Some NaN.
Proof. split; by_eval. Qed.

(** C6, amended.  [slope] is [undefined], a result of its own and not the
    number NaN, exactly when the x of the two points are finite and equal,
    and a number for every other pair of points.  For two points of finite
    coordinates it is [(y2-y1)/(x2-x1)] when [x2] differs from [x1].  So
    [slope([0,0],[1,1])] is 1 and [slope([2,3],[2,9])] is undefined. *)
Theorem slope_or_undefined (x1 y1 x2 y2 : Qc) (r1 r2 : Pt) (p1 p2 : Pt) :
  Line.slope (Fin x1 :: Fin y1 :: r1) (Fin x2 :: Fin y2 :: r2) =
    (if decide (x2 = x1) then None else Some (Fin ((y2 - y1) / (x2 - x1))))
  ∧ (Line.slope p1 p2 = None ↔ ∃ x, p1.[0] = Fin x ∧ p2.[0] = Fin x)
  ∧ (None : option number) ≠ Some NaN
  ∧ Line.slope (pt2 0 0) (pt2 1 1) = Some (int 1)
  ∧ Line.slope (pt2 2 3) (pt2 2 9) = None.
Proof.
  split; [apply slope_Fin|]. split; [|split; [done|split; by_eval]].
  rewrite <- x_difference_zero. unfold Line.slope.
  destruct (_ ==? _)%num; split; done.
Qed.




Lemma intersectPath2D_cases_sym (ax0 ay0 ax1 ay1 bx0 by0 bx1 by1 : Qc) :
  ¬ coincident ax0 ay0 ax1 ay1 bx0 by0 bx1 by1 →
  intersectPath2D_cases ax0 ay0 ax1 ay1 bx0 by0 bx1 by1 =
  intersectPath2D_cases bx0 by0 bx1 by1 ax0 ay0 ax1 ay1.
Proof.
  unfold coincident, intersectPath2D_cases. intros Hnc.
  generalize dependent (yiQ ax0 ay0 ax1 ay1).
  generalize dependent (yiQ bx0 by0 bx1 by1).
  generalize dependent (slopeQ ax0 ay0 ax1 ay1).
  generalize dependent (slopeQ bx0 by0 bx1 by1).
  intros mb ma cb ca Hnc. cbv zeta.
  repeat case_decide; try done; try congruence.
  - exfalso. apply Hnc. naive_solver.
  - assert (ma - mb ≠ 0) by by rewrite Qcminus_eq_0.
    assert (mb - ma ≠ 0) by by rewrite Qcminus_eq_0.
    do 2 f_equal; [f_equal; by field|do 2 f_equal; by field].
Qed.

(** C2, as the claim states it, fails: two overlapping segments of the
    line [y = x].  [intersectPath2D] answers with the first point of its
    first argument, [(0,0)] in one order, which is outside the other
    segment, and [(1,1)] in the other order, which is inside both. *)
Lemma intersectLine2D_not_symmetric :
  Line.intersectLine2D [pt2 0 0; pt2 2 2] [pt2 1 1; pt2 3 3] = Return None
  ∧ Line.intersectLine2D [pt2 1 1; pt2 3 3] [pt2 0 0; pt2 2 2] = Return (Some (pt2 1 1))
  ∧ ¬ (∀ a0 a1 b0 b1 : Pt, a0 ≠ a1 → b0 ≠ b1 →
       Line.intersectLine2D [a0; a1] [b0; b1] = Line.intersectLine2D [b0; b1] [a0; a1]).
Proof.
  assert (Line.intersectLine2D [pt2 0 0; pt2 2 2] [pt2 1 1; pt2 3 3] = Return None)
    as H1 by by_eval.
  assert (Line.intersectLine2D [pt2 1 1; pt2 3 3] [pt2 0 0; pt2 2 2]
          = Return (Some (pt2 1 1))) as H2 by by_eval.
  split; [done|]. split; [done|].
  intros Hsym.
  specialize (Hsym (pt2 0 0) (pt2 2 2) (pt2 1 1) (pt2 3 3)).
  rewrite H1, H2 in Hsym.
  assert (pt2 0 0 ≠ pt2 2 2) as Ha by (by apply (bool_decide_eq_true_1 _); vm_compute).
  assert (pt2 1 1 ≠ pt2 3 3) as Hb by (by apply (bool_decide_eq_true_1 _); vm_compute).
  by specialize (Hsym Ha Hb).
Qed.

(** C2, amended.  For two segments of finite coordinates whose lines are
    not coincident (not both non-vertical with equal slopes and equal
    y-intercepts), [intersectLine2D(A,B)] and [intersectLine2D(B,A)] are the
    same result: both undefined, or the same point. *)
Theorem intersectLine2D_symmetric
    (ax0 ay0 ax1 ay1 bx0 by0 bx1 by1 : Qc) (ra0 ra1 rb0 rb1 : Pt) (la lb : Group) :
  let A := (Fin ax0 :: Fin ay0 :: ra0) :: (Fin ax1 :: Fin ay1 :: ra1) :: la in
  let B := (Fin bx0 :: Fin by0 :: rb0) :: (Fin bx1 :: Fin by1 :: rb1) :: lb in
  ¬ coincident ax0 ay0 ax1 ay1 bx0 by0 bx1 by1 →
  Line.intersectLine2D A B = Line.intersectLine2D B A.
Proof.
  intros A B Hnc. subst A B. unfold Line.intersectLine2D.
  rewrite !intersectPath2D_Fin, <-(intersectPath2D_cases_sym _ _ _ _ _ _ _ _ Hnc).
  cbn [mbind outcome_bind].
  destruct (intersectPath2D_cases _ _ _ _ _ _ _ _) as [pt|]; [|done].
  cbn [item lookup list_lookup mbind outcome_bind].
  by rewrite andb_comm.
Qed.

(** The theorem at the crossing diagonals [[0,0],[4,4]] and [[0,4],[4,0]],
    which meet at [(2,2)]. *)
Lemma intersectLine2D_symmetric_witness :
  ¬ coincident (Qc_of_Z 0) (Qc_of_Z 0) (Qc_of_Z 4) (Qc_of_Z 4)
               (Qc_of_Z 0) (Qc_of_Z 4) (Qc_of_Z 4) (Qc_of_Z 0)
  ∧ Line.intersectLine2D [pt2 0 0; pt2 4 4] [pt2 0 4; pt2 4 0] =
    Line.intersectLine2D [pt2 0 4; pt2 4 0] [pt2 0 0; pt2 4 4].
Proof.
  assert (¬ coincident (Qc_of_Z 0) (Qc_of_Z 0) (Qc_of_Z 4) (Qc_of_Z 4)
                       (Qc_of_Z 0) (Qc_of_Z 4) (Qc_of_Z 4) (Qc_of_Z 0)) as Hnc.
  { intros (_ & _ & Hm & _). revert Hm.
    by apply (bool_decide_eq_true_1 _); vm_compute. }
  split; [exact Hnc|].
  exact (intersectLine2D_symmetric
           (Qc_of_Z 0) (Qc_of_Z 0) (Qc_of_Z 4) (Qc_of_Z 4)
           (Qc_of_Z 0) (Qc_of_Z 4) (Qc_of_Z 4) (Qc_of_Z 0) [] [] [] [] [] [] Hnc).
Defined.

Example intersectLine2D_diagonals :
  Line.intersectLine2D [pt2 0 0; pt2 4 4] [pt2 0 4; pt2 4 0] = Return (Some (pt2 2 2)).
Proof. by_eval. Qed.

End line_properties.

(** ** Geom *)

Section geom_properties.

Local Open Scope Qc_scope.

Lemma le_lt_trans_number (a b c : number) :
  (a <=? b)%num = true → (b <? c)%num = true → (a <=? c)%num = true.
Proof.
  destruct a as [x| | |], b as [y| | |], c as [z| | |]; cbn; try done.
  rewrite !bool_decide_eq_true. intros Hxy Hyz.
  apply Qclt_le_weak. by apply Qcle_lt_trans with y.
Qed.

Lemma boundingBox_step_above (p : Pt) (acc : Pt * Pt) (d : nat) :
  above_MIN_VALUE acc.2 → above_MIN_VALUE (Geom.boundingBox_step p acc d).2.
Proof.
  destruct acc as [mn mx]. unfold above_MIN_VALUE, Geom.boundingBox_step. cbn [snd].
  intros Hmx. destruct (p.[d] >? mx.[d])%num eqn:Hgt; [|done].
  unfold comp in Hgt. destruct (mx !! d) as [v|] eqn:Hv.
  - apply Forall_insert; [done|].
    apply le_lt_trans_number with v; [|done].
    by apply (Forall_lookup_1 _ _ _ _ Hmx Hv).
  - by destruct (p !! d) as [[]|].
Qed.

Lemma boundingBox_pt_above (p : Pt) (acc : Pt * Pt) :
  above_MIN_VALUE acc.2 → above_MIN_VALUE (Geom.boundingBox_pt acc p).2.
Proof.
  unfold Geom.boundingBox_pt. generalize (seq 0 (length p)). intros ds.
  revert acc. induction ds as [|d ds IH]; intros acc Hacc; [done|].
  cbn [foldl]. by apply IH, boundingBox_step_above.
Qed.

(** Whatever the points are, no component of the second point returned by
    [boundingBox] is below [Number.MIN_VALUE], the value it starts from:
    the loop only ever replaces a component by a larger one. *)
Lemma boundingBox_max_above (pts : Group) (minPt maxPt : Pt) :
  Geom.boundingBox pts = Return [minPt; maxPt] → above_MIN_VALUE maxPt.
Proof.
  unfold Geom.boundingBox. destruct (item pts 0) as [p0|]; [|done].
  cbn [mbind outcome_bind].
  assert (∀ acc, above_MIN_VALUE acc.2 →
                 above_MIN_VALUE (foldl Geom.boundingBox_pt acc pts).2) as Hfold.
  { induction pts as [|p pts IH]; intros acc Hacc; [done|].
    cbn [foldl]. by apply IH, boundingBox_pt_above. }
  specialize (Hfold (Geom.clone_fill p0 MAX_VALUE, Geom.clone_fill p0 MIN_VALUE)).
  destruct (foldl _ _ pts) as [mn mx]. intros [= -> ->].
  apply Hfold. cbn [snd]. unfold Geom.clone_fill.
  apply Forall_replicate. by vm_compute.
Qed.

(** C5.  The example of the specification holds, but the claim does not:
    for the single point [(-1,-2)] the second point returned is
    [(MIN_VALUE, MIN_VALUE)], the smallest positive double in both
    components, and not the componentwise maximum [(-1,-2)]. *)
Theorem boundingBox_negative_point :
  Geom.boundingBox [pt2 0 5; pt2 3 1; pt2 (-2) 7] = Return [pt2 (-2) 1; pt2 3 7]
  ∧ Geom.boundingBox [pt2 (-1) (-2)] = Return [pt2 (-1) (-2); [MIN_VALUE; MIN_VALUE]].
Proof. split; by_eval. Qed.

End geom_properties.

(** ** Rectangle *)

Section rectangle_properties.

Lemma sides_Fin (x0 y0 x2 y2 : Qc) (r0 r2 : Pt) :
  Rectangle.sides [Fin x0 :: Fin y0 :: r0; Fin x2 :: Fin y2 :: r2] =
    Return [ [Fin x0 :: Fin y0 :: r0; Fin x0 :: Fin y2 :: r0];
             [Fin x0 :: Fin y2 :: r0; Fin x2 :: Fin y2 :: r2];
             [Fin x2 :: Fin y2 :: r2; Fin x2 :: Fin y0 :: r0];
             [Fin x2 :: Fin y0 :: r0; Fin x0 :: Fin y0 :: r0] ].
Proof.
  unfold Rectangle.sides, PtClass.to.
  cbn [item lookup list_lookup mbind outcome_bind comp length drop app].
  by rewrite !firstn_all2 by (simpl; lia).
Qed.

(** C8, as the claim states it, fails: for the rectangle with corners
    [(0,0)] and [(2,1)] the first segment returned runs from [(0,0)] to
    [(0,1)], which is the left side and not the top side. *)
Lemma sides_order_not_top_first :
  Rectangle.sides [pt2 0 0; pt2 2 1] =
    Return [ [pt2 0 0; pt2 0 1]; [pt2 0 1; pt2 2 1];
             [pt2 2 1; pt2 2 0]; [pt2 2 0; pt2 0 0] ]
  ∧ ¬ sides_in_order [Top; Right; Bottom; Left] (pt2 0 0) (pt2 2 1).
Proof.
  split; [by_eval|].
  intros (segs & Hs & Ho).
  assert (Rectangle.sides [pt2 0 0; pt2 2 1] =
            Return [ [pt2 0 0; pt2 0 1]; [pt2 0 1; pt2 2 1];
                     [pt2 2 1; pt2 2 0]; [pt2 2 0; pt2 0 0] ]) as Hv by by_eval.
  rewrite Hv in Hs. injection Hs as <-.
  apply Forall2_cons_1 in Ho as [Htop _]. revert Htop.
  by apply (bool_decide_eq_true_1 _); vm_compute.
Qed.

(** C8, amended.  For every rectangle given by its corners [tl] (top
    left) and [br] (bottom right), of finite coordinates, [sides] returns
    four segments in the fixed order left, bottom, right, top, each in one
    direction: from the top left corner to the bottom left, from there to
    the bottom right, from there to the top right, and from there back to
    the top left.  The first and third segments start at the points [tl]
    and [br] themselves, and the two other corners are [tl] with its x and
    y replaced. *)
Theorem sides_order (x0 y0 x2 y2 : Qc) (r0 r2 : Pt) :
  let tl := Fin x0 :: Fin y0 :: r0 in
  let br := Fin x2 :: Fin y2 :: r2 in
  let bl := Fin x0 :: Fin y2 :: r0 in
  let tr := Fin x2 :: Fin y0 :: r0 in
  sides_in_order [Left; Bottom; Right; Top] tl br
  ∧ sides_walk [ (TopLeft, BottomLeft); (BottomLeft, BottomRight);
                 (BottomRight, TopRight); (TopRight, TopLeft) ] tl br
  ∧ Rectangle.sides [tl; br] = Return [ [tl; bl]; [bl; br]; [br; tr]; [tr; tl] ].
Proof.
  intros tl br bl tr. subst tl br bl tr.
  split; [|split; [|apply sides_Fin]].
  - eexists. split; [apply sides_Fin|].
    repeat apply Forall2_cons; try apply Forall2_nil; cbn; auto.
  - eexists. split; [apply sides_Fin|].
    repeat apply Forall2_cons; try apply Forall2_nil; cbn; auto.
Qed.

End rectangle_properties.

(** ** What the operations do to the store *)

Module StoreFacts.

Import Store.

Lemma keeps_refl n h : keeps n h h.
Proof. by split. Qed.

Lemma keeps_trans n h1 h2 h3 : keeps n h1 h2 → keeps n h2 h3 → keeps n h1 h3.
Proof.
  intros [Hl1 Hk1] [Hl2 Hk2]. split; [lia|].
  intros l Hl. by rewrite Hk2, Hk1.
Qed.

Lemma keeps_prefix h h' : keeps (length h) h h' → h `prefix_of` h'.
Proof.
  intros [Hlen Hk]. exists (drop (length h) h').
  rewrite <-(take_drop (length h) h') at 1. f_equal.
  apply list_eq. intros l. destruct (decide (l < length h)) as [Hl|Hl].
  - by rewrite lookup_take_lt, Hk.
  - rewrite lookup_take_ge, lookup_ge_None_2; [done|lia|lia].
Qed.

Section rules.

Context {A B : Type}.

Lemma safe_ret n (a : A) (Q : A → Prop) : Q a → safe n (mret a) Q.
Proof. intros HQ h Hn. split; [apply keeps_refl|done]. Qed.

Lemma safe_throw n e (Q : A → Prop) : safe n (throw e) Q.
Proof. intros h Hn. split; [apply keeps_refl|done]. Qed.

Lemma safe_bind n (m : M A) (f : A → M B) (P : A → Prop) (Q : B → Prop) :
  safe n m P → (∀ a, P a → safe n (f a) Q) → safe n (m ≫= f) Q.
Proof.
  intros Hm Hf h Hn. unfold mbind, M_bind.
  destruct (Hm h Hn) as [Hk HP]. destruct (m h) as [h1 [a|e]]; cbn in *; [|done].
  destruct (Hf a HP h1) as [Hk1 HQ]; [destruct Hk; lia|].
  split; [by eapply keeps_trans|done].
Qed.

Lemma safe_fmap n (m : M A) (f : A → B) (P : A → Prop) (Q : B → Prop) :
  safe n m P → (∀ a, P a → Q (f a)) → safe n (f <$> m) Q.
Proof.
  intros Hm Hf h Hn. unfold fmap, M_fmap.
  destruct (Hm h Hn) as [Hk HP]. destruct (m h) as [h1 [a|e]]; cbn in *; auto.
Qed.

Lemma safe_weaken n (m : M A) (P Q : A → Prop) :
  safe n m P → (∀ a, P a → Q a) → safe n m Q.
Proof.
  intros Hm HPQ h Hn. destruct (Hm h Hn) as [Hk HP]. split; [done|].
  destruct (m h).2; auto.
Qed.

End rules.

Lemma safe_for_each {A} n (xs : list A) (body : A → M unit) :
  (∀ x, safe n (body x) (λ _, True)) → safe n (for_each xs body) (λ _, True).
Proof.
  intros Hbody. induction xs as [|x xs IH]; cbn [for_each].
  - by apply safe_ret.
  - eapply safe_bind; [apply Hbody|]. by intros _ _.
Qed.

(** The primitives: a new object lies at or above [n]; a read changes
    nothing; a write is allowed at or above [n] only. *)
Lemma safe_alloc n o : safe n (alloc o) (λ l, n ≤ l).
Proof.
  intros h Hn. unfold alloc. cbn [fst snd]. split; [|done]. split.
  - rewrite length_app. cbn. lia.
  - intros l Hl. apply lookup_app_l. lia.
Qed.

Lemma safe_load n l : safe n (load l) (λ _, True).
Proof.
  intros h Hn. unfold load. cbn [fst snd]. split; [apply keeps_refl|].
  by case_match.
Qed.

Lemma safe_store n l o : n ≤ l → safe n (store l o) (λ _, True).
Proof.
  intros Hl h Hn. unfold store. cbn [fst snd]. split; [|done]. split.
  - by rewrite length_insert.
  - intros l' Hl'. apply list_lookup_insert_ne. lia.
Qed.

Create HintDb safe.
#[local] Hint Resolve safe_alloc safe_load safe_store : safe.

(** One step of a computation: the first command by a rule already proved,
    then the rest. *)
Ltac safe_step :=
  lazymatch goal with
  | |- safe _ (mret _) _ =>
      apply safe_ret; try solve [repeat case_match; cbn in *; first [done|lia]]
  | |- safe _ (throw _) _ => apply safe_throw
  | |- safe _ (_ ≫= _) _ =>
      eapply safe_bind; [solve [eauto with safe lia]|cbn beta; intros ? ?]
  | |- safe _ (_ <$> _) _ =>
      eapply safe_fmap; [solve [eauto with safe lia]|cbn beta; intros ? ?; try done]
  | |- safe _ (match ?x with _ => _ end) _ => destruct x
  | |- safe _ (if ?b then _ else _) _ => destruct b
  | |- safe _ _ _ => solve [eauto with safe lia]
  end.

Ltac safe_auto := repeat safe_step.

Lemma safe_readPt n l : safe n (readPt l) (λ _, True).
Proof. unfold readPt. safe_auto. Qed.

Lemma safe_readGroup n l : safe n (readGroup l) (λ _, True).
Proof. unfold readGroup. safe_auto. Qed.

#[local] Hint Resolve safe_readPt safe_readGroup : safe.

Lemma safe_group_item n g i : safe n (group_item g i) (λ _, True).
Proof. unfold group_item. safe_auto. Qed.

#[local] Hint Resolve safe_group_item : safe.

Section methods.

Context `{PtArith}.

Lemma safe_Pt_make n k v : safe n (Pt_make k v) (λ l, n ≤ l).
Proof. apply safe_alloc. Qed.

Lemma safe_new_Pt n cs : safe n (new_Pt cs) (λ l, n ≤ l).
Proof. apply safe_alloc. Qed.

Lemma safe_new_Group n ps : safe n (new_Group ps) (λ l, n ≤ l).
Proof. apply safe_alloc. Qed.

Lemma safe_to n p q : n ≤ p → safe n (to p q) (λ l, n ≤ l).
Proof. intros. unfold to. safe_auto. Qed.

Lemma safe_add n p q : n ≤ p → safe n (add p q) (λ l, n ≤ l).
Proof. intros. unfold add. safe_auto. Qed.

Lemma safe_divide n p v : n ≤ p → safe n (divide p v) (λ l, n ≤ l).
Proof. intros. unfold divide. safe_auto. Qed.

Lemma safe_set_comp n p i v : n ≤ p → safe n (set_comp p i v) (λ _, True).
Proof. intros. unfold set_comp. safe_auto. Qed.

Lemma safe_push n g p : n ≤ g → safe n (push g p) (λ _, True).
Proof. intros. unfold push. safe_auto. Qed.

Lemma safe_subtract_new n p q : safe n (subtract_new p q) (λ l, n ≤ l).
Proof. unfold subtract_new. safe_auto. Qed.

Lemma safe_add_new n p q : safe n (add_new p q) (λ l, n ≤ l).
Proof. unfold add_new. safe_auto. Qed.

Lemma safe_cross_new n p q : safe n (cross_new p q) (λ l, n ≤ l).
Proof. unfold cross_new. safe_auto. Qed.

Lemma safe_project_new n p q : safe n (project_new p q) (λ l, n ≤ l).
Proof. unfold project_new. safe_auto. Qed.

Lemma safe_equals n p q : safe n (equals p q) (λ _, True).
Proof. unfold equals. safe_auto. Qed.

Lemma safe_magnitude n p : safe n (magnitude p) (λ _, True).
Proof. unfold magnitude. safe_auto. Qed.

#[local] Hint Resolve safe_Pt_make safe_new_Pt safe_new_Group safe_to safe_add
  safe_divide safe_set_comp safe_push safe_subtract_new safe_add_new
  safe_cross_new safe_project_new safe_equals safe_magnitude : safe.

Lemma safe_sum n pts : safe n (sum pts) (λ l, n ≤ l).
Proof.
  unfold sum. do 4 safe_step.
  eapply safe_bind; [|intros; by apply safe_ret].
  apply safe_for_each. intros i. safe_auto.
Qed.

#[local] Hint Resolve safe_sum : safe.

Lemma safe_average n pts : safe n (average pts) (λ l, n ≤ l).
Proof. unfold average. safe_auto. Qed.

Lemma safe_interpolate n a b t : safe n (interpolate a b t) (λ l, n ≤ l).
Proof.
  unfold interpolate. do 3 safe_step.
  eapply safe_bind; [|intros; by apply safe_ret].
  apply safe_for_each. intros i. safe_auto.
Qed.

Lemma safe_withinBound n pt b1 b2 : safe n (withinBound pt b1 b2) (λ _, True).
Proof. unfold withinBound. safe_auto. Qed.

Lemma safe_slope n p1 p2 : safe n (slope p1 p2) (λ _, True).
Proof. unfold slope. safe_auto. Qed.

Lemma safe_intercept n p1 p2 : safe n (intercept p1 p2) (λ _, True).
Proof. unfold intercept. safe_auto. Qed.

#[local] Hint Resolve safe_average safe_interpolate safe_withinBound safe_slope
  safe_intercept : safe.

Lemma safe_collinear n p1 p2 p3 : safe n (collinear p1 p2 p3) (λ _, True).
Proof. unfold collinear. safe_auto. Qed.

Lemma safe_perpendicularFromPt n pt ln asProjection :
  safe n (perpendicularFromPt pt ln asProjection) (λ l, n ≤ l).
Proof. unfold perpendicularFromPt. safe_auto. Qed.

#[local] Hint Resolve safe_collinear safe_perpendicularFromPt : safe.

Lemma safe_distanceFromPt n pt ln asProjection :
  safe n (distanceFromPt pt ln asProjection) (λ _, True).
Proof. unfold distanceFromPt. safe_auto. Qed.

Lemma safe_intersectPath2D n la lb :
  safe n (intersectPath2D la lb) (new_or_undefined n).
Proof. unfold intersectPath2D. safe_auto. Qed.

#[local] Hint Resolve safe_distanceFromPt safe_intersectPath2D : safe.

Lemma safe_intersectLine2D n la lb :
  safe n (intersectLine2D la lb) (new_or_undefined n).
Proof. unfold intersectLine2D. safe_auto. Qed.

Lemma safe_intersectLineWithPath2D n line path :
  safe n (intersectLineWithPath2D line path) (new_or_undefined n).
Proof. unfold intersectLineWithPath2D. safe_auto. Qed.

Lemma safe_intersectGrid2D n pt gridPt :
  safe n (intersectGrid2D pt gridPt) (λ l, n ≤ l).
Proof. unfold intersectGrid2D. safe_auto. Qed.

Lemma safe_subpoints n ln num : safe n (subpoints ln num) (λ l, n ≤ l).
Proof.
  unfold subpoints. safe_step.
  eapply safe_bind; [|intros; by apply safe_ret].
  apply safe_for_each. intros i. safe_auto.
Qed.

#[local] Hint Resolve safe_intersectLine2D safe_intersectLineWithPath2D
  safe_intersectGrid2D safe_subpoints : safe.

Lemma safe_run n c : safe n (run c) (new_ref n).
Proof.
  destruct c; cbn [run]; safe_step;
    repeat match goal with
           | o : option _ |- _ => destruct o
           end; done.
Qed.

(** C9.  Every operation of [Num] and [Line] that receives points or
    groups, run from any store, ends in a store that is the initial one
    followed by the objects the call built: no object that existed before
    the call is changed, whether the call returns or throws.  A point or
    group it returns is one of the new objects. *)
Theorem operations_leave_arguments (c : call) (h : list obj) :
  h `prefix_of` (run c h).1
  ∧ match (run c h).2 with
    | Return (VRef l) => length h ≤ l
    | _ => True
    end.
Proof.
  destruct (safe_run (length h) c h) as [Hk Hr]; [done|].
  split; [by apply keeps_prefix|].
  destruct (run c h).2 as [[]|]; done.
Qed.

(** A write is visible in the store: [to] on an object that the store
    already holds replaces its components. *)
Example to_writes_its_receiver :
  (to 0 1 [OPt (pt2 1 2); OPt (pt2 3 4)]).1 = [OPt (pt2 3 4); OPt (pt2 3 4)].
Proof. reflexivity. Qed.

(** The sum of two points, on a store that holds them and their group:
    the accumulator is the fourth object, the only one written. *)
Example sum_two_points :
  run (Sum 2) [OPt (pt2 1 2); OPt (pt2 3 4); OGroup [0; 1]]
  = ([OPt (pt2 1 2); OPt (pt2 3 4); OGroup [0; 1];
      OPt (vec_add (vec_add (pt2 0 0) (pt2 1 2)) (pt2 3 4))],
     Return (VRef 3)).
Proof. reflexivity. Qed.

End methods.

(** *** The store and the values

    On a store that holds two lines, [intersectPath2D] on their references
    computes what [Line.intersectPath2D] computes on their values, and
    builds the point it returns. *)

Lemma run_bind {A B} (m : M A) (f : A → M B) (h h' : list obj) (a : A) :
  m h = (h', Return a) → (m ≫= f) h = f a h'.
Proof. intros Hm. unfold mbind, M_bind. by rewrite Hm. Qed.

Lemma run_readPt (h : list obj) (l : nat) (cs : Pt) :
  h !! l = Some (OPt cs) → readPt l h = (h, Return cs).
Proof. intros Hl. unfold readPt, mbind, M_bind, load. by rewrite Hl. Qed.

Lemma run_readGroup (h : list obj) (l : nat) (ps : list nat) :
  h !! l = Some (OGroup ps) → readGroup l h = (h, Return ps).
Proof. intros Hl. unfold readGroup, mbind, M_bind, load. by rewrite Hl. Qed.

Lemma run_group_item (h : list obj) (g i l : nat) (ps : list nat) :
  h !! g = Some (OGroup ps) → ps !! i = Some l →
  group_item g i h = (h, Return l).
Proof.
  intros Hg Hi. unfold group_item.
  rewrite (run_bind _ _ _ _ _ (run_readGroup _ _ _ Hg)). by rewrite Hi.
Qed.

Lemma run_intercept (h : list obj) (p1 p2 : nat) (c1 c2 : Pt) :
  h !! p1 = Some (OPt c1) → h !! p2 = Some (OPt c2) →
  intercept p1 p2 h = (h, Return (Line.intercept c1 c2)).
Proof.
  intros H1 H2. unfold intercept.
  rewrite (run_bind _ _ _ _ _ (run_readPt _ _ _ H2)).
  by rewrite (run_bind _ _ _ _ _ (run_readPt _ _ _ H1)).
Qed.

Lemma intersectPath2D_on_values
    (h : list obj) (la lb a0 a1 b0 b1 : nat) (ra rb : list nat) (ca0 ca1 cb0 cb1 : Pt) :
  h !! la = Some (OGroup (a0 :: a1 :: ra)) →
  h !! lb = Some (OGroup (b0 :: b1 :: rb)) →
  h !! a0 = Some (OPt ca0) → h !! a1 = Some (OPt ca1) →
  h !! b0 = Some (OPt cb0) → h !! b1 = Some (OPt cb1) →
  intersectPath2D la lb h =
    match Line.intersectPath2D [ca0; ca1] [cb0; cb1] with
    | Return (Some pt) => (h ++ [OPt pt], Return (Some (length h)))
    | Return None => (h, Return None)
    | Throw e => (h, Throw e)
    end.
Proof.
  intros Hla Hlb Ha0 Ha1 Hb0 Hb1. unfold intersectPath2D.
  rewrite (run_bind _ _ _ _ _ (run_group_item _ _ 0 _ _ Hla eq_refl)).
  rewrite (run_bind _ _ _ _ _ (run_group_item _ _ 1 _ _ Hla eq_refl)).
  rewrite (run_bind _ _ _ _ _ (run_intercept _ _ _ _ _ Ha0 Ha1)).
  rewrite (run_bind _ _ _ _ _ (run_group_item _ _ 0 _ _ Hlb eq_refl)).
  rewrite (run_bind _ _ _ _ _ (run_group_item _ _ 1 _ _ Hlb eq_refl)).
  rewrite (run_bind _ _ _ _ _ (run_intercept _ _ _ _ _ Hb0 Hb1)).
  rewrite (run_bind _ _ _ _ _ (run_group_item _ _ 0 _ _ Hla eq_refl)).
  rewrite (run_bind _ _ _ _ _ (run_group_item _ _ 0 _ _ Hlb eq_refl)).
  rewrite (run_bind _ _ _ _ _ (run_readPt _ _ _ Ha0)).
  rewrite (run_bind _ _ _ _ _ (run_readPt _ _ _ Hb0)).
  unfold Line.intersectPath2D.
  cbn [item lookup list_lookup mbind outcome_bind].
  destruct (Line.intercept ca0 ca1) as [a|], (Line.intercept cb0 cb1) as [b|];
    try done.
  destruct (_ !=? _)%num; [done|]. by destruct (_ ==? _)%num.
Qed.

End StoreFacts.

(** * Further properties of the scalar helpers *)

Section order_on_numbers.

Local Open Scope Qc_scope.

Lemma lt_Fin (x y : Qc) : (Fin x <? Fin y)%num = bool_decide (x < y).
Proof. reflexivity. Qed.

Lemma gt_Fin (x y : Qc) : (Fin x >? Fin y)%num = bool_decide (y < x).
Proof. reflexivity. Qed.

Lemma le_Fin (x y : Qc) : (Fin x <=? Fin y)%num = bool_decide (x ≤ y).
Proof. reflexivity. Qed.

Lemma ge_Fin (x y : Qc) : (Fin x >=? Fin y)%num = bool_decide (y ≤ x).
Proof. reflexivity. Qed.

Lemma Qc_eq_Qeq (x y : Qc) : x = y → (x == y)%Q.
Proof. by intros ->. Qed.

Lemma qmin_comm (x y : Qc) : qmin x y = qmin y x.
Proof.
  unfold qmin. repeat case_decide; try done.
  - exfalso. by apply (Qclt_not_le x y), Qclt_le_weak.
  - apply (anti_symm Qcle); by apply Qcle_ngt.
Qed.

Lemma qmax_comm (x y : Qc) : qmax x y = qmax y x.
Proof.
  unfold qmax. repeat case_decide; try done.
  - exfalso. by apply (Qclt_not_le x y), Qclt_le_weak.
  - apply (anti_symm Qcle); by apply Qcle_ngt.
Qed.

Lemma qmin_le_l (x y : Qc) : qmin x y ≤ x.
Proof. unfold qmin. case_decide; [by apply Qclt_le_weak|done]. Qed.

Lemma qmin_le_r (x y : Qc) : qmin x y ≤ y.
Proof. rewrite qmin_comm. apply qmin_le_l. Qed.

Lemma qmax_ge_l (x y : Qc) : x ≤ qmax x y.
Proof. unfold qmax. case_decide; [by apply Qclt_le_weak|done]. Qed.

Lemma qmax_ge_r (x y : Qc) : y ≤ qmax x y.
Proof. rewrite qmax_comm. apply qmax_ge_l. Qed.

Lemma qmin_le_qmax (x y : Qc) : qmin x y ≤ qmax x y.
Proof. etrans; [apply qmin_le_l|apply qmax_ge_l]. Qed.

Lemma min_comm (a b : number) : Number.min a b = Number.min b a.
Proof.
  destruct a as [x| | |], b as [y| | |]; try done.
  by rewrite !min_Fin, qmin_comm.
Qed.

Lemma max_comm (a b : number) : Number.max a b = Number.max b a.
Proof.
  destruct a as [x| | |], b as [y| | |]; try done.
  by rewrite !max_Fin, qmax_comm.
Qed.

Lemma eqb_comm (a b : number) : (a ==? b)%num = (b ==? a)%num.
Proof.
  destruct a as [x| | |], b as [y| | |]; try done.
  rewrite !eqb_Fin. apply bool_decide_ext. split; congruence.
Qed.

End order_on_numbers.

#[local] Hint Rewrite lt_Fin gt_Fin le_Fin ge_Fin : fin.

Section num_more.

Local Open Scope Qc_scope.

(** X1. At [t = 0] and at [t = 1] [lerp] returns its ends [a] and [b]
    when both are finite; an infinite [a] turns [lerp(a, b, 1)] into NaN,
    since it is still multiplied by zero. *)
Theorem lerp_ends (a b : Qc) :
  Num.lerp (Fin a) (Fin b) (int 0) = Fin a
  ∧ Num.lerp (Fin a) (Fin b) (int 1) = Fin b
  ∧ Num.lerp PInf (Fin b) (int 1) = NaN
  ∧ Num.lerp NInf (Fin b) (int 1) = NaN.
Proof.
  unfold Num.lerp. autorewrite with fin.
  split; [f_equal; ring|]. split; [f_equal; ring|].
  replace (1 - 1) with 0 by ring. by cbn.
Qed.

(** X2. [within] does not depend on the order of its two bounds, for any
    numbers. *)
Theorem within_bounds_swap (p a b : number) :
  Num.within p a b = Num.within p b a.
Proof. unfold Num.within. by rewrite (min_comm a b), (max_comm a b). Qed.

(** X3. On finite numbers [within] is the closed interval between the
    smaller and the larger bound, so both bounds are within. *)
Theorem within_closed_interval (p a b : Qc) :
  Num.within (Fin p) (Fin a) (Fin b)
    = bool_decide (qmin a b ≤ p ∧ p ≤ qmax a b)
  ∧ Num.within (Fin a) (Fin a) (Fin b) = true
  ∧ Num.within (Fin b) (Fin a) (Fin b) = true.
Proof.
  assert (∀ p, Num.within (Fin p) (Fin a) (Fin b)
               = bool_decide (qmin a b ≤ p ∧ p ≤ qmax a b)) as Hw.
  { intros q. unfold Num.within. autorewrite with fin.
    repeat case_bool_decide; tauto. }
  split; [apply Hw|]. rewrite !Hw.
  split; apply bool_decide_eq_true_2.
  - split; [apply qmin_le_l|apply qmax_ge_l].
  - split; [apply qmin_le_r|apply qmax_ge_r].
Qed.

(** A number that is not finite on the side of the value: NaN is within
    no bounds. *)
Lemma within_NaN (a b : number) : Num.within NaN a b = false.
Proof. unfold Num.within. by destruct (Number.min a b). Qed.

Lemma normalizeValue_Fin (n a b : Qc) :
  a ≠ b →
  Num.normalizeValue (Fin n) (Fin a) (Fin b)
  = Fin ((n - qmin a b) / (qmax a b - qmin a b)).
Proof.
  intros Hne. unfold Num.normalizeValue. autorewrite with fin.
  by rewrite div_Fin by by apply qmax_qmin_ne.
Qed.

(** X4. For two distinct finite bounds [normalizeValue] sends the smaller
    one to 0 and the larger one to 1, in whichever order they are given. *)
Theorem normalizeValue_ends (a b : Qc) :
  a ≠ b →
  Num.normalizeValue (Fin (qmin a b)) (Fin a) (Fin b) = Fin 0
  ∧ Num.normalizeValue (Fin (qmax a b)) (Fin a) (Fin b) = Fin 1.
Proof.
  intros Hne. rewrite !normalizeValue_Fin by done.
  pose proof (qmax_qmin_ne a b Hne).
  split; f_equal; by field.
Qed.

Lemma normalizeValue_ends_witness :
  Num.normalizeValue (Fin (qmin (Qc_of_Z 7) (Qc_of_Z 3))) (int 7) (int 3) = Fin 0
  ∧ Num.normalizeValue (Fin (qmax (Qc_of_Z 7) (Qc_of_Z 3))) (int 7) (int 3) = Fin 1.
Proof.
  apply (normalizeValue_ends (Qc_of_Z 7) (Qc_of_Z 3)).
  by apply (bool_decide_eq_true_1 _); vm_compute.
Defined.

(** X5. With two equal finite bounds [normalizeValue] divides by zero: the
    result is NaN at the bound itself, plus infinity above it and minus
    infinity below it. *)
Theorem normalizeValue_zero_range (n a : Qc) :
  Num.normalizeValue (Fin n) (Fin a) (Fin a)
  = if decide (n = a) then NaN else if decide (a < n) then PInf else NInf.
Proof.
  unfold Num.normalizeValue. autorewrite with fin.
  replace (qmin a a) with a by (unfold qmin; by case_decide).
  replace (qmax a a) with a by (unfold qmax; by case_decide).
  replace (a - a) with 0 by ring.
  unfold div, is_zero, is_pos, inf_of_sign.
  rewrite bool_decide_eq_true_2 by done.
  assert (0 < n - a ↔ a < n) as Hpos.
  { split; intros; Qc_to_Q; lra. }
  pose proof (Qcminus_eq_0 n a) as Hzero.
  repeat case_bool_decide; repeat case_decide; try done; tauto.
Qed.

Lemma fraction_in_unit (n a b : Qc) :
  a ≠ b → qmin a b ≤ n → n ≤ qmax a b →
  0 ≤ (n - qmin a b) / (qmax a b - qmin a b)
  ∧ (n - qmin a b) / (qmax a b - qmin a b) ≤ 1.
Proof.
  intros Hne Hlo Hhi.
  pose proof (qmax_qmin_ne a b Hne) as Hd. pose proof (qmin_le_qmax a b) as Hle.
  generalize dependent (qmax a b). generalize dependent (qmin a b).
  intros mn Hlo mx Hhi Hd Hle.
  assert (0 < mx - mn) as Hpos.
  { destruct (Qcle_lt_or_eq _ _ Hle) as [Hlt| ->].
    - Qc_to_Q. lra.
    - destruct Hd. ring. }
  assert ((n - mn) / (mx - mn) * (mx - mn) = n - mn) as Hq by by field.
  generalize dependent ((n - mn) / (mx - mn)). intros r Hq.
  apply Qc_eq_Qeq in Hq. Qc_to_Q. split; nra.
Qed.

(** X6. A finite value between two distinct finite bounds is normalized
    to a value between 0 and 1. *)
Theorem normalizeValue_unit_interval (n a b : Qc) :
  a ≠ b → qmin a b ≤ n → n ≤ qmax a b →
  ∃ r, Num.normalizeValue (Fin n) (Fin a) (Fin b) = Fin r ∧ 0 ≤ r ∧ r ≤ 1.
Proof.
  intros Hne Hlo Hhi. rewrite normalizeValue_Fin by done.
  eexists. split; [done|]. by apply fraction_in_unit.
Qed.

Lemma normalizeValue_unit_interval_witness :
  ∃ r, Num.normalizeValue (int 4) (int 3) (int 7) = Fin r ∧ 0 ≤ r ∧ r ≤ 1.
Proof.
  apply (normalizeValue_unit_interval (Qc_of_Z 4) (Qc_of_Z 3) (Qc_of_Z 7));
    by apply (bool_decide_eq_true_1 _); vm_compute.
Defined.

End num_more.

Section range_more.

Local Open Scope Qc_scope.

Lemma mapToRange_Fin (n a b ta tb : Qc) :
  a ≠ b →
  Num.mapToRange (Fin n) (Fin a) (Fin b) (Fin ta) (Fin tb)
  = Return (Fin ((n - qmin a b) / (qmax a b - qmin a b)
                 * (qmax ta tb - qmin ta tb) + qmin ta tb)).
Proof.
  intros Hne. unfold Num.mapToRange. rewrite eqb_Fin.
  rewrite bool_decide_eq_false_2 by done.
  rewrite normalizeValue_Fin by done. by autorewrite with fin.
Qed.

(** X7. Mapping a finite value from a range onto the same range returns
    the value. *)
Theorem mapToRange_same_range (n a b : Qc) :
  a ≠ b →
  Num.mapToRange (Fin n) (Fin a) (Fin b) (Fin a) (Fin b) = Return (Fin n).
Proof.
  intros Hne. rewrite mapToRange_Fin by done.
  pose proof (qmax_qmin_ne a b Hne). do 2 f_equal. by field.
Qed.

Lemma mapToRange_same_range_witness :
  Num.mapToRange (int 5) (int 9) (int 2) (int 9) (int 2) = Return (int 5).
Proof.
  apply (mapToRange_same_range (Qc_of_Z 5) (Qc_of_Z 9) (Qc_of_Z 2)).
  by apply (bool_decide_eq_true_1 _); vm_compute.
Defined.

(** X8. [mapToRange] does not see the direction of its ranges: exchanging
    the two current bounds, or the two target bounds, changes neither the
    value returned nor whether it throws, for any numbers.  On finite
    bounds, the call throws when the two current bounds are equal, and
    otherwise sends the smaller current bound to the smaller target bound
    and the larger to the larger, in whichever order each pair is
    given. *)
Theorem mapToRange_direction_lost
    (n currA currB targetA targetB : number) (a b ta tb : Qc) :
  Num.mapToRange n currB currA targetA targetB
    = Num.mapToRange n currA currB targetA targetB
  ∧ Num.mapToRange n currA currB targetB targetA
    = Num.mapToRange n currA currB targetA targetB
  ∧ Num.mapToRange (Fin (qmin a b)) (Fin a) (Fin b) (Fin ta) (Fin tb)
    = (if decide (a = b)
       then Throw (Thrown "[currMin, currMax] must define a range that is not zero")
       else Return (Fin (qmin ta tb)))
  ∧ Num.mapToRange (Fin (qmax a b)) (Fin a) (Fin b) (Fin ta) (Fin tb)
    = (if decide (a = b)
       then Throw (Thrown "[currMin, currMax] must define a range that is not zero")
       else Return (Fin (qmax ta tb))).
Proof.
  split; [|split].
  - unfold Num.mapToRange, Num.normalizeValue.
    by rewrite (eqb_comm currB currA), (min_comm currB currA),
      (max_comm currB currA).
  - unfold Num.mapToRange.
    by rewrite (min_comm targetB targetA), (max_comm targetB targetA).
  - case_decide as Hne.
    + subst b. unfold Num.mapToRange. rewrite !eqb_Fin.
      by rewrite !bool_decide_eq_true_2.
    + rewrite !mapToRange_Fin by done.
      pose proof (qmax_qmin_ne a b Hne).
      split; do 2 f_equal; by field.
Qed.

(** X9. A finite value inside the current range is mapped inside the
    target range, bounds included. *)
Theorem mapToRange_inside_target (n a b ta tb : Qc) :
  a ≠ b → qmin a b ≤ n → n ≤ qmax a b →
  ∃ r, Num.mapToRange (Fin n) (Fin a) (Fin b) (Fin ta) (Fin tb) = Return (Fin r)
       ∧ qmin ta tb ≤ r ∧ r ≤ qmax ta tb.
Proof.
  intros Hne Hlo Hhi. rewrite mapToRange_Fin by done.
  eexists. split; [done|].
  destruct (fraction_in_unit n a b Hne Hlo Hhi) as [H0 H1].
  pose proof (qmin_le_qmax ta tb) as Ht.
  generalize dependent ((n - qmin a b) / (qmax a b - qmin a b)). intros u H0 H1.
  generalize dependent (qmax ta tb). generalize dependent (qmin ta tb).
  intros tmn tmx Ht. Qc_to_Q. split; nra.
Qed.

Lemma mapToRange_inside_target_witness :
  ∃ r, Num.mapToRange (int 4) (int 3) (int 7) (int 10) (int 0) = Return (Fin r)
       ∧ qmin (Qc_of_Z 10) (Qc_of_Z 0) ≤ r ∧ r ≤ qmax (Qc_of_Z 10) (Qc_of_Z 0).
Proof.
  apply (mapToRange_inside_target
           (Qc_of_Z 4) (Qc_of_Z 3) (Qc_of_Z 7) (Qc_of_Z 10) (Qc_of_Z 0));
    by apply (bool_decide_eq_true_1 _); vm_compute.
Defined.

(** X10. With [max] equal to [min] the period of [boundValue] is zero and
    the remainder by it is NaN, which is what the call returns for every
    finite value. *)
Theorem boundValue_zero_period (v m : Qc) (positive : bool) :
  Num.boundValue (Fin v) (Fin m) (Fin m) positive = NaN.
Proof.
  unfold Num.boundValue. rewrite sub_Fin. replace (m - m) with 0 by ring.
  unfold abs. rewrite bool_decide_eq_false_2 by (intros H; by apply Qclt_not_eq in H).
  unfold rem, is_zero. by rewrite bool_decide_eq_true_2.
Qed.

Lemma wrap0_fixed (r mx : Qc) : 0 < mx → 0 ≤ r → r < mx → wrap0 r mx = r.
Proof.
  intros Hmx Hlo Hhi.
  destruct (wrap0_range r mx Hmx) as [? ?].
  destruct (wrap0_congruent r mx) as [j Hj].
  apply (wrap_unique mx _ _ (- j)%Z); try done.
  rewrite Hj, Qc_of_Z_opp. ring.
Qed.

Lemma Qc_360_pos : 0 < Qc_of_Z 360.
Proof. by apply (bool_decide_eq_true_1 _); vm_compute. Qed.

Lemma boundAngle_Fin (a : Qc) :
  Geom.boundAngle (Fin a) = Fin (wrap0 a (Qc_of_Z 360)).
Proof.
  unfold Geom.boundAngle. rewrite int_0. unfold int.
  apply boundValue_zero_min, Qc_360_pos.
Qed.

(** X13. [boundAngle] brings every finite angle into [[0, 360)]; an angle
    that is already there is returned as it is, so bounding twice is
    bounding once; and adding any whole number of turns to the angle does
    not change the result. *)
Theorem boundAngle_range (a : Qc) (k : Z) :
  (∃ r, Geom.boundAngle (Fin a) = Fin r ∧ 0 ≤ r ∧ r < Qc_of_Z 360)
  ∧ Geom.boundAngle (Geom.boundAngle (Fin a)) = Geom.boundAngle (Fin a)
  ∧ Geom.boundAngle (Fin a + int k * int 360)%num = Geom.boundAngle (Fin a).
Proof.
  unfold int at 1 2. autorewrite with fin. rewrite !boundAngle_Fin.
  destruct (wrap0_range a _ Qc_360_pos) as [Hlo Hhi].
  split; [by eexists|]. split; f_equal.
  - apply wrap0_fixed; [apply Qc_360_pos|done|done].
  - apply wrap0_periodic, Qc_360_pos.
Qed.

(** The hypothesis of the two lemmas on [boundValue] from zero, at the
    range [[0, 360)]. *)
Lemma boundValue_zero_min_range_witness :
  ∃ r, Num.boundValue (int 370) (Fin 0) (int 360) false = Fin r
       ∧ 0 ≤ r ∧ r < Qc_of_Z 360.
Proof.
  apply (boundValue_zero_min_range (Qc_of_Z 370) (Qc_of_Z 360) false).
  by apply (bool_decide_eq_true_1 _); vm_compute.
Defined.

Lemma boundValue_zero_min_periodic_witness :
  Num.boundValue (int 10 + int 2 * (int 360 - Fin 0))%num (Fin 0) (int 360) false
  = Num.boundValue (int 10) (Fin 0) (int 360) false.
Proof.
  apply (boundValue_zero_min_periodic (Qc_of_Z 10) (Qc_of_Z 360) 2 false).
  by apply (bool_decide_eq_true_1 _); vm_compute.
Defined.

End range_more.

(** * Further properties of lines *)

Section line_more.

Local Open Scope Qc_scope.

Lemma slopeQ_rise (x0 y0 x1 y1 : Qc) :
  x1 ≠ x0 → slopeQ x0 y0 x1 y1 * (x1 - x0) = y1 - y0.
Proof. intros. unfold slopeQ. field. by rewrite Qcminus_eq_0. Qed.

Lemma slopeQ_swap (x0 y0 x1 y1 : Qc) :
  x1 ≠ x0 → slopeQ x1 y1 x0 y0 = slopeQ x0 y0 x1 y1.
Proof.
  intros. unfold slopeQ. field. split; rewrite Qcminus_eq_0; congruence.
Qed.

Lemma yiQ_swap (x0 y0 x1 y1 : Qc) :
  x1 ≠ x0 → yiQ x1 y1 x0 y0 = yiQ x0 y0 x1 y1.
Proof.
  intros Hne. unfold yiQ. rewrite slopeQ_swap by done.
  pose proof (slopeQ_rise x0 y0 x1 y1 Hne) as Hm.
  generalize dependent (slopeQ x0 y0 x1 y1). intros m Hm.
  transitivity (y1 - y0 - m * (x1 - x0) + (y0 - m * x0)); [ring|].
  rewrite Hm. ring.
Qed.

(** X14. The slope and the intercepts of a line do not depend on the
    order of the two finite points that give it. *)
Theorem slope_intercept_ends_swap (x0 y0 x1 y1 : Qc) (r0 r1 : Pt) :
  let p0 := Fin x0 :: Fin y0 :: r0 in
  let p1 := Fin x1 :: Fin y1 :: r1 in
  Line.slope p1 p0 = Line.slope p0 p1
  ∧ Line.intercept p1 p0 = Line.intercept p0 p1.
Proof.
  intros p0 p1. subst p0 p1. rewrite !slope_Fin, !intercept_Fin. cbv zeta.
  destruct (decide (x1 = x0)) as [->|Hne].
  - by rewrite !decide_True by done.
  - rewrite !(decide_False (P := x0 = x1)) by congruence.
    by rewrite slopeQ_swap, yiQ_swap.
Qed.

(** X15. For two finite points of different x, [intercept] and [slope]
    give the same slope [m]; both points satisfy [y = m x + c] for the
    y-intercept [c]; and the x-intercept is undefined exactly for a
    horizontal line, and otherwise a root of [m x + c]. *)
Theorem intercept_line_equation (x0 y0 x1 y1 : Qc) (r0 r1 : Pt) :
  x1 ≠ x0 →
  ∃ m c,
    Line.intercept (Fin x0 :: Fin y0 :: r0) (Fin x1 :: Fin y1 :: r1)
    = Some (Intercept.Make (Fin m) (Fin c)
              (if decide (m = 0) then None else Some (Fin (- c / m))))
    ∧ Line.slope (Fin x0 :: Fin y0 :: r0) (Fin x1 :: Fin y1 :: r1) = Some (Fin m)
    ∧ y0 = m * x0 + c ∧ y1 = m * x1 + c
    ∧ (m ≠ 0 → m * (- c / m) + c = 0).
Proof.
  intros Hne. exists (slopeQ x0 y0 x1 y1), (yiQ x0 y0 x1 y1).
  rewrite intercept_Fin, slope_Fin.
  rewrite !(decide_False (P := x1 = x0)) by done. cbv zeta.
  split; [done|]. split; [done|]. unfold yiQ.
  pose proof (slopeQ_rise x0 y0 x1 y1 Hne) as Hm.
  generalize dependent (slopeQ x0 y0 x1 y1). intros m Hm.
  split; [ring|]. split.
  - transitivity (y1 - y0 - m * (x1 - x0) + (m * x1 + (y0 - m * x0))); [ring|].
    rewrite Hm. ring.
  - intros. by field.
Qed.

Lemma intercept_line_equation_witness :
  ∃ m c,
    Line.intercept (pt2 0 1) (pt2 2 5)
    = Some (Intercept.Make (Fin m) (Fin c)
              (if decide (m = 0) then None else Some (Fin (- c / m))))
    ∧ Line.slope (pt2 0 1) (pt2 2 5) = Some (Fin m)
    ∧ Qc_of_Z 1 = m * Qc_of_Z 0 + c ∧ Qc_of_Z 5 = m * Qc_of_Z 2 + c
    ∧ (m ≠ 0 → m * (- c / m) + c = 0).
Proof.
  apply (intercept_line_equation
           (Qc_of_Z 0) (Qc_of_Z 1) (Qc_of_Z 2) (Qc_of_Z 5) [] []).
  by apply (bool_decide_eq_true_1 _); vm_compute.
Defined.

Lemma intersectPath2D_cases_on_lines
    (ax0 ay0 ax1 ay1 bx0 by0 bx1 by1 : Qc) (pt : Pt) :
  intersectPath2D_cases ax0 ay0 ax1 ay1 bx0 by0 bx1 by1 = Some pt →
  ∃ px py, pt = [Fin px; Fin py]
           ∧ on_line ax0 ay0 ax1 ay1 px py ∧ on_line bx0 by0 bx1 by1 px py.
Proof.
  unfold intersectPath2D_cases, on_line, yiQ. cbv zeta.
  destruct (decide (ax1 = ax0)) as [->|Ha], (decide (bx1 = bx0)) as [->|Hb];
    try done.
  - pose proof (slopeQ_rise bx0 by0 bx1 by1 Hb) as Hmb.
    generalize dependent (slopeQ bx0 by0 bx1 by1). intros mb Hmb.
    intros [= <-]. eexists _, _. split; [done|]. split; [ring|].
    rewrite <-Hmb. ring.
  - pose proof (slopeQ_rise ax0 ay0 ax1 ay1 Ha) as Hma.
    generalize dependent (slopeQ ax0 ay0 ax1 ay1). intros ma Hma.
    intros [= <-]. eexists _, _. split; [done|]. split; [|ring].
    rewrite <-Hma. ring.
  - pose proof (slopeQ_rise ax0 ay0 ax1 ay1 Ha) as Hma.
    pose proof (slopeQ_rise bx0 by0 bx1 by1 Hb) as Hmb.
    generalize dependent (slopeQ ax0 ay0 ax1 ay1). intros ma Hma.
    generalize dependent (slopeQ bx0 by0 bx1 by1). intros mb Hmb.
    destruct (decide (mb = ma)) as [->|Hm].
    + case_decide as Hc; [|done].
      intros [= <-]. eexists _, _. split; [done|]. split; [ring|].
      rewrite <-Hmb.
      transitivity ((ay0 - ma * ax0 - (by0 - ma * bx0) + ma * (ax0 - bx0))
                    * (bx1 - bx0)); [rewrite Hc|]; ring.
    + intros [= <-]. eexists _, _. split; [done|].
      assert (ma - mb ≠ 0) by (rewrite Qcminus_eq_0; congruence).
      rewrite <-Hma, <-Hmb. split; by field.
Qed.

(** X16. A point returned by [intersectPath2D] for two lines of finite
    coordinates lies on both lines. *)
Theorem intersectPath2D_on_both_lines
    (ax0 ay0 ax1 ay1 bx0 by0 bx1 by1 : Qc) (ra0 ra1 rb0 rb1 : Pt)
    (la lb : Group) (pt : Pt) :
  Line.intersectPath2D
    ((Fin ax0 :: Fin ay0 :: ra0) :: (Fin ax1 :: Fin ay1 :: ra1) :: la)
    ((Fin bx0 :: Fin by0 :: rb0) :: (Fin bx1 :: Fin by1 :: rb1) :: lb)
  = Return (Some pt) →
  ∃ px py, pt = [Fin px; Fin py]
           ∧ on_line ax0 ay0 ax1 ay1 px py ∧ on_line bx0 by0 bx1 by1 px py.
Proof.
  rewrite intersectPath2D_Fin. intros [= Hpt].
  by apply intersectPath2D_cases_on_lines.
Qed.

Lemma intersectPath2D_on_both_lines_witness :
  ∃ px py, pt2 2 2 = [Fin px; Fin py]
           ∧ on_line (Qc_of_Z 0) (Qc_of_Z 0) (Qc_of_Z 4) (Qc_of_Z 4) px py
           ∧ on_line (Qc_of_Z 0) (Qc_of_Z 4) (Qc_of_Z 4) (Qc_of_Z 0) px py.
Proof.
  apply (intersectPath2D_on_both_lines
           (Qc_of_Z 0) (Qc_of_Z 0) (Qc_of_Z 4) (Qc_of_Z 4)
           (Qc_of_Z 0) (Qc_of_Z 4) (Qc_of_Z 4) (Qc_of_Z 0) [] [] [] [] [] []).
  by apply (bool_decide_eq_true_1 _); vm_compute.
Defined.




End line_more.

Section segment_more.

Local Open Scope Qc_scope.

Lemma withinBound_2 (px py x0 y0 x1 y1 : Qc) (r0 r1 : Pt) :
  Geom.withinBound [Fin px; Fin py] (Fin x0 :: Fin y0 :: r0) (Fin x1 :: Fin y1 :: r1)
  = bool_decide (inside x0 x1 px ∧ inside y0 y1 py).
Proof.
  unfold Geom.withinBound, inside.
  cbn [length Nat.min seq forallb comp lookup list_lookup].
  autorewrite with fin. repeat case_bool_decide; try done; tauto.
Qed.

(** X18. A point returned by [intersectLine2D] for two segments of finite
    coordinates lies on the lines of both segments and between the ends of
    each of them, in x and in y: it is a point of both segments. *)
Theorem intersectLine2D_on_both_segments
    (ax0 ay0 ax1 ay1 bx0 by0 bx1 by1 : Qc) (ra0 ra1 rb0 rb1 : Pt)
    (la lb : Group) (pt : Pt) :
  Line.intersectLine2D
    ((Fin ax0 :: Fin ay0 :: ra0) :: (Fin ax1 :: Fin ay1 :: ra1) :: la)
    ((Fin bx0 :: Fin by0 :: rb0) :: (Fin bx1 :: Fin by1 :: rb1) :: lb)
  = Return (Some pt) →
  ∃ px py, pt = [Fin px; Fin py]
           ∧ on_line ax0 ay0 ax1 ay1 px py ∧ on_line bx0 by0 bx1 by1 px py
           ∧ inside ax0 ax1 px ∧ inside ay0 ay1 py
           ∧ inside bx0 bx1 px ∧ inside by0 by1 py.
Proof.
  unfold Line.intersectLine2D. rewrite intersectPath2D_Fin.
  cbn [mbind outcome_bind].
  destruct (intersectPath2D_cases _ _ _ _ _ _ _ _) as [q|] eqn:Hq; [|done].
  destruct (intersectPath2D_cases_on_lines _ _ _ _ _ _ _ _ _ Hq)
    as (px & py & -> & Ha & Hb).
  cbn [item lookup list_lookup mbind outcome_bind].
  rewrite !withinBound_2.
  repeat case_bool_decide; cbn [andb]; intros [= <-]; exists px, py; tauto.
Qed.

Lemma intersectLine2D_on_both_segments_witness :
  ∃ px py, pt2 2 2 = [Fin px; Fin py]
           ∧ on_line (Qc_of_Z 0) (Qc_of_Z 0) (Qc_of_Z 4) (Qc_of_Z 4) px py
           ∧ on_line (Qc_of_Z 0) (Qc_of_Z 4) (Qc_of_Z 4) (Qc_of_Z 0) px py
           ∧ inside (Qc_of_Z 0) (Qc_of_Z 4) px ∧ inside (Qc_of_Z 0) (Qc_of_Z 4) py
           ∧ inside (Qc_of_Z 0) (Qc_of_Z 4) px ∧ inside (Qc_of_Z 4) (Qc_of_Z 0) py.
Proof.
  apply (intersectLine2D_on_both_segments
           (Qc_of_Z 0) (Qc_of_Z 0) (Qc_of_Z 4) (Qc_of_Z 4)
           (Qc_of_Z 0) (Qc_of_Z 4) (Qc_of_Z 4) (Qc_of_Z 0) [] [] [] [] [] []).
  by apply (bool_decide_eq_true_1 _); vm_compute.
Defined.

(** X19. Whatever the two groups are, a point that [intersectLine2D]
    returns is also what [intersectLineWithPath2D] returns, and what
    [intersectPath2D] returns; and [intersectLineWithPath2D] throws or is
    undefined whenever [intersectPath2D] is. *)
Theorem intersectLine2D_refines_path (la lb : Group) (pt : Pt) :
  (Line.intersectLine2D la lb = Return (Some pt) →
   Line.intersectLineWithPath2D la lb = Return (Some pt)
   ∧ Line.intersectPath2D la lb = Return (Some pt))
  ∧ (Line.intersectLineWithPath2D la lb = Return (Some pt) →
     Line.intersectPath2D la lb = Return (Some pt)).
Proof.
  unfold Line.intersectLine2D, Line.intersectLineWithPath2D.
  destruct (Line.intersectPath2D la lb) as [[q|]|e]; cbn [mbind outcome_bind];
    [|done|done].
  destruct (item la 0) as [la0|]; cbn [mbind outcome_bind]; [|done].
  destruct (item la 1) as [la1|]; cbn [mbind outcome_bind]; [|done].
  split.
  - destruct (item lb 0) as [lb0|]; cbn [mbind outcome_bind]; [|done].
    destruct (item lb 1) as [lb1|]; cbn [mbind outcome_bind]; [|done].
    destruct (Geom.withinBound q la0 la1); cbn [andb]; [|done].
    by destruct (Geom.withinBound q lb0 lb1); intros [= <-].
  - by destruct (Geom.withinBound q la0 la1); intros [= <-].
Qed.

Lemma intersectLine2D_refines_path_witness :
  Line.intersectLineWithPath2D [pt2 0 0; pt2 4 4] [pt2 0 4; pt2 4 0]
    = Return (Some (pt2 2 2))
  ∧ Line.intersectPath2D [pt2 0 0; pt2 4 4] [pt2 0 4; pt2 4 0]
    = Return (Some (pt2 2 2)).
Proof.
  apply (intersectLine2D_refines_path [pt2 0 0; pt2 4 4] [pt2 0 4; pt2 4 0]).
  by apply (bool_decide_eq_true_1 _); vm_compute.
Defined.

(** [intersectLineWithPath2D] bounds the point by its first argument
    only.  The segment from [(0,0)] to [(4,0)] and the line through
    [(2,1)] and [(2,2)] meet at [(2,0)], outside the second pair: it is
    returned with the segment first and refused with the segment second,
    and [intersectLine2D] refuses it in both orders. *)
Example intersectLineWithPath2D_first_only :
  Line.intersectLineWithPath2D [pt2 0 0; pt2 4 0] [pt2 2 1; pt2 2 2]
    = Return (Some (pt2 2 0))
  ∧ Line.intersectLineWithPath2D [pt2 2 1; pt2 2 2] [pt2 0 0; pt2 4 0]
    = Return None
  ∧ Line.intersectLine2D [pt2 0 0; pt2 4 0] [pt2 2 1; pt2 2 2] = Return None
  ∧ Line.intersectLine2D [pt2 2 1; pt2 2 2] [pt2 0 0; pt2 4 0] = Return None.
Proof. repeat split; by_eval. Qed.

End segment_more.

(** * Further properties of the bounding functions *)

Section bounding_more.

Local Open Scope Qc_scope.

(** One point of the outer loop of [boundingBox], component by component:
    the components below the length of the point are compared with it,
    the others are left. *)
Lemma boundingBox_pt_lookup (p mn mx : list number) (k d : nat) :
  let acc := foldl (Geom.boundingBox_step p) (mn, mx) (seq 0 k) in
  acc.1 !! d
    = (if decide (d < k)%nat
       then (λ v, if (p.[d] <? v)%num then p.[d] else v) <$> mn !! d
       else mn !! d)
  ∧ acc.2 !! d
    = (if decide (d < k)%nat
       then (λ v, if (p.[d] >? v)%num then p.[d] else v) <$> mx !! d
       else mx !! d).
Proof.
  cbv zeta. induction k as [|k IH].
  - cbn. by rewrite !decide_False by lia.
  - rewrite seq_S, foldl_app. cbn [foldl plus].
    destruct (foldl _ _ (seq 0 k)) as [mn' mx']. cbn [fst snd] in *.
    destruct IH as [IH1 IH2]. unfold Geom.boundingBox_step, comp. cbn [fst snd].
    unfold Pt in *.
    destruct (decide (d = k)) as [->|Hne].
    + rewrite decide_False in IH1, IH2 by lia.
      rewrite !(decide_True (P := (k < S k)%nat)) by lia.
      rewrite IH1, IH2. split.
      * destruct (mn !! k) as [v|] eqn:Hv; cbn.
        -- destruct (_ <? _)%num; [|done].
           apply list_lookup_insert_eq. rewrite <-lookup_lt_is_Some, IH1. eauto.
        -- by destruct (p !! k) as [[]|].
      * destruct (mx !! k) as [v|] eqn:Hv; cbn.
        -- destruct (_ >? _)%num; [|done].
           apply list_lookup_insert_eq. rewrite <-lookup_lt_is_Some, IH2. eauto.
        -- by destruct (p !! k) as [[]|].
    + assert (∀ (l : list number) c v,
                (if c : bool then <[k:=v]> l else l) !! d = l !! d) as Hins.
      { intros l [] v; [|done]. by apply list_lookup_insert_ne. }
      rewrite !Hins, IH1, IH2.
      destruct (decide (d < k)%nat), (decide (d < S k)%nat); try done; lia.
Qed.

Lemma comp_finite (qs : list Qc) (d : nat) (q : Qc) :
  qs !! d = Some q → (Fin <$> qs : list number).[d] = Fin q.
Proof. intros Hq. unfold comp, Pt. by rewrite list_lookup_fmap, Hq. Qed.

Lemma boundingBox_pt_finite (ms Ms qs : list Qc) :
  Geom.boundingBox_pt (Fin <$> ms, Fin <$> Ms) (Fin <$> qs)
  = (Fin <$> imap (keep_least qs) ms, Fin <$> imap (keep_greatest qs) Ms).
Proof.
  unfold Geom.boundingBox_pt.
  pose proof (boundingBox_pt_lookup (Fin <$> qs) (Fin <$> ms) (Fin <$> Ms)
                (length (Fin <$> qs))) as Hlook.
  cbv zeta in Hlook. destruct (foldl _ _ _) as [mn mx]. cbn [fst snd] in Hlook.
  unfold Pt in *.
  f_equal; apply list_eq; intros d; destruct (Hlook d) as [H1 H2].
  - rewrite H1, !list_lookup_fmap, list_lookup_imap, length_fmap.
    clear Hlook H1 H2. destruct (decide (d < length qs)%nat) as [Hd|Hd];
      unfold keep_least; (destruct (ms !! d) as [m|]; [|done]).
    + apply lookup_lt_is_Some in Hd as [q Hq].
      rewrite (comp_finite _ _ _ Hq), Hq. cbn.
      by case_bool_decide; case_decide.
    + by rewrite lookup_ge_None_2 by lia.
  - rewrite H2, !list_lookup_fmap, list_lookup_imap, length_fmap.
    clear Hlook H1 H2. destruct (decide (d < length qs)%nat) as [Hd|Hd];
      unfold keep_greatest; (destruct (Ms !! d) as [m|]; [|done]).
    + apply lookup_lt_is_Some in Hd as [q Hq].
      rewrite (comp_finite _ _ _ Hq), Hq. cbn.
      by case_bool_decide; case_decide.
    + by rewrite lookup_ge_None_2 by lia.
Qed.

Lemma boundingBox_fold_finite (qss : list (list Qc)) (ms Ms : list Qc) :
  foldl Geom.boundingBox_pt (Fin <$> ms, Fin <$> Ms) (finite_pt <$> qss)
  = (Fin <$> foldl (λ ms qs, imap (keep_least qs) ms) ms qss,
     Fin <$> foldl (λ Ms qs, imap (keep_greatest qs) Ms) Ms qss).
Proof.
  revert ms Ms. induction qss as [|qs qss IH]; intros ms Ms; [done|].
  cbn [fmap list_fmap foldl]. unfold finite_pt at 1.
  by rewrite boundingBox_pt_finite, IH.
Qed.

Lemma fold_keep_least (qss : list (list Qc)) (ms : list Qc) (d : nat) :
  foldl (λ ms qs, imap (keep_least qs) ms) ms qss !! d
  = (λ m, least m (column d qss)) <$> ms !! d.
Proof.
  revert ms. induction qss as [|qs qss IH]; intros ms.
  - cbn. by destruct (ms !! d).
  - cbn [foldl]. rewrite IH, list_lookup_imap.
    destruct (ms !! d) as [m|]; [|done]. cbn. f_equal.
    unfold keep_least, column, least. cbn [omap list_omap].
    by destruct (qs !! d).
Qed.

Lemma fold_keep_greatest (qss : list (list Qc)) (Ms : list Qc) (d : nat) :
  foldl (λ Ms qs, imap (keep_greatest qs) Ms) Ms qss !! d
  = (λ m, greatest m (column d qss)) <$> Ms !! d.
Proof.
  revert Ms. induction qss as [|qs qss IH]; intros Ms.
  - cbn. by destruct (Ms !! d).
  - cbn [foldl]. rewrite IH, list_lookup_imap.
    destruct (Ms !! d) as [m|]; [|done]. cbn. f_equal.
    unfold keep_greatest, column, greatest. cbn [omap list_omap].
    by destruct (qs !! d).
Qed.

Lemma boundingBox_finite (qs0 : list Qc) (qss : list (list Qc)) :
  Geom.boundingBox (finite_pt <$> (qs0 :: qss))
  = Return
      [ Fin <$> ((λ d, least MAXQ (column d (qs0 :: qss))) <$> seq 0 (length qs0));
        Fin <$> ((λ d, greatest MINQ (column d (qs0 :: qss))) <$> seq 0 (length qs0)) ].
Proof.
  unfold Geom.boundingBox. cbn [fmap list_fmap item lookup list_lookup mbind outcome_bind].
  unfold Geom.clone_fill, finite_pt at 1 2. rewrite length_fmap.
  change MAX_VALUE with (Fin MAXQ). change MIN_VALUE with (Fin MINQ).
  rewrite <-!fmap_replicate.
  change (?a :: (finite_pt <$> qss)) with (finite_pt <$> (qs0 :: qss)).
  rewrite boundingBox_fold_finite.
  f_equal. f_equal; [|f_equal]; apply list_eq; intros d.
  - rewrite !list_lookup_fmap, fold_keep_least.
    destruct (decide (d < length qs0)%nat).
    + by rewrite lookup_replicate_2, lookup_seq_lt by done.
    + by rewrite (proj1 (lookup_replicate_None _ _ _)), lookup_seq_ge by lia.
  - rewrite !list_lookup_fmap, fold_keep_greatest.
    destruct (decide (d < length qs0)%nat).
    + by rewrite lookup_replicate_2, lookup_seq_lt by done.
    + by rewrite (proj1 (lookup_replicate_None _ _ _)), lookup_seq_ge by lia.
Qed.

(** The least and the greatest of a start value and a list. *)
Lemma least_step (init q : Qc) :
  (if decide (q < init) then q else init) ≤ init
  ∧ (if decide (q < init) then q else init) ≤ q.
Proof.
  case_decide as H; split; try done.
  - by apply Qclt_le_weak.
  - by apply Qcnot_lt_le.
Qed.

Lemma greatest_step (init q : Qc) :
  init ≤ (if decide (init < q) then q else init)
  ∧ q ≤ (if decide (init < q) then q else init).
Proof.
  case_decide as H; split; try done.
  - by apply Qclt_le_weak.
  - by apply Qcnot_lt_le.
Qed.

Lemma least_le_init (init : Qc) (col : list Qc) : least init col ≤ init.
Proof.
  revert init. induction col as [|q col IH]; intros init; [done|].
  etrans; [apply IH|]. apply least_step.
Qed.

Lemma least_le (init : Qc) (col : list Qc) (q : Qc) :
  q ∈ col → least init col ≤ q.
Proof.
  revert init. induction col as [|q' col IH]; intros init Hq.
  - by apply elem_of_nil in Hq.
  - apply elem_of_cons in Hq as [->|Hq]; [|by apply IH].
    etrans; [apply (least_le_init (if decide (q' < init) then q' else init))|].
    apply least_step.
Qed.

Lemma least_in (init : Qc) (col : list Qc) :
  least init col = init ∨ least init col ∈ col.
Proof.
  revert init. induction col as [|q col IH]; intros init; [by left|].
  unfold least. cbn [foldl]. fold (least (if decide (q < init) then q else init) col).
  destruct (IH (if decide (q < init) then q else init)) as [->|Hin].
  - case_decide; [right; apply elem_of_cons; by left|by left].
  - right. apply elem_of_cons. by right.
Qed.

Lemma greatest_ge_init (init : Qc) (col : list Qc) : init ≤ greatest init col.
Proof.
  revert init. induction col as [|q col IH]; intros init; [done|].
  etrans; [|apply IH]. apply greatest_step.
Qed.

Lemma greatest_ge (init : Qc) (col : list Qc) (q : Qc) :
  q ∈ col → q ≤ greatest init col.
Proof.
  revert init. induction col as [|q' col IH]; intros init Hq.
  - by apply elem_of_nil in Hq.
  - apply elem_of_cons in Hq as [->|Hq]; [|by apply IH].
    etrans; [|apply (greatest_ge_init (if decide (init < q') then q' else init))].
    apply greatest_step.
Qed.

Lemma greatest_in (init : Qc) (col : list Qc) :
  greatest init col = init ∨ greatest init col ∈ col.
Proof.
  revert init. induction col as [|q col IH]; intros init; [by left|].
  unfold greatest. cbn [foldl].
  fold (greatest (if decide (init < q) then q else init) col).
  destruct (IH (if decide (init < q) then q else init)) as [->|Hin].
  - case_decide; [right; apply elem_of_cons; by left|by left].
  - right. apply elem_of_cons. by right.
Qed.

Lemma elem_of_column (d : nat) (qss : list (list Qc)) (q : Qc) :
  q ∈ column d qss ↔ ∃ qs, qs ∈ qss ∧ qs !! d = Some q.
Proof. apply list_elem_of_omap. Qed.

Lemma boundingBox_step_length (p : Pt) (acc : Pt * Pt) (d : nat) :
  length (Geom.boundingBox_step p acc d).1 = length acc.1
  ∧ length (Geom.boundingBox_step p acc d).2 = length acc.2.
Proof.
  destruct acc as [mn mx]. unfold Geom.boundingBox_step. cbn [fst snd]. unfold Pt.
  split; case_match; by rewrite ?length_insert.
Qed.

Lemma boundingBox_pt_length (acc : Pt * Pt) (p : Pt) :
  length (Geom.boundingBox_pt acc p).1 = length acc.1
  ∧ length (Geom.boundingBox_pt acc p).2 = length acc.2.
Proof.
  unfold Geom.boundingBox_pt. generalize (seq 0 (length p)). intros ds.
  revert acc. induction ds as [|d ds IH]; intros acc; [done|].
  cbn [foldl]. destruct (IH (Geom.boundingBox_step p acc d)) as [-> ->].
  apply boundingBox_step_length.
Qed.

(** X20. [boundingBox] throws a TypeError on the empty group and on no
    other; otherwise it returns two points that have as many components as
    the first point of the group, whatever the other points are. *)
Theorem boundingBox_shape (pts : Group) :
  match pts with
  | [] => Geom.boundingBox pts = Throw TypeError
  | p0 :: _ =>
      ∃ minPt maxPt, Geom.boundingBox pts = Return [minPt; maxPt]
                     ∧ length minPt = length p0 ∧ length maxPt = length p0
  end.
Proof.
  destruct pts as [|p0 pts]; [done|].
  unfold Geom.boundingBox. cbn [item lookup list_lookup mbind outcome_bind].
  assert (∀ (ps : Group) acc,
            length (foldl Geom.boundingBox_pt acc ps).1 = length acc.1
            ∧ length (foldl Geom.boundingBox_pt acc ps).2 = length acc.2) as Hfold.
  { induction ps as [|p ps IH]; intros acc; [done|].
    cbn [foldl]. destruct (IH (Geom.boundingBox_pt acc p)) as [-> ->].
    apply boundingBox_pt_length. }
  destruct (Hfold (p0 :: pts)
              (Geom.clone_fill p0 MAX_VALUE, Geom.clone_fill p0 MIN_VALUE))
    as [H1 H2].
  destruct (foldl _ _ _) as [mn mx]. cbn [fst snd] in *.
  exists mn, mx. unfold Geom.clone_fill in *.
  by rewrite length_replicate in H1, H2.
Qed.

(** X21. For points of finite components, the component [d] of the first
    point returned by [boundingBox] is the least of [Number.MAX_VALUE] and
    of the components [d] of the points that have one, and that of the
    second point is the greatest of [Number.MIN_VALUE] and of those
    components; [d] runs over the components of the first point of the
    group. *)
Theorem boundingBox_least_greatest (qs0 : list Qc) (qss : list (list Qc)) :
  ∃ minPt maxPt,
    Geom.boundingBox (finite_pt <$> (qs0 :: qss)) = Return [minPt; maxPt]
    ∧ length minPt = length qs0 ∧ length maxPt = length qs0
    ∧ ∀ d, (d < length qs0)%nat →
        minPt.[d] = Fin (least MAXQ (column d (qs0 :: qss)))
        ∧ maxPt.[d] = Fin (greatest MINQ (column d (qs0 :: qss))).
Proof.
  rewrite boundingBox_finite. eexists _, _. split; [done|].
  rewrite !length_fmap, !length_seq. split; [done|]. split; [done|].
  intros d Hd. unfold comp, Pt.
  by rewrite !list_lookup_fmap, !lookup_seq_lt by done.
Qed.

(** X22. For points of finite components the two points returned by
    [boundingBox] enclose every point of the group, in each component that
    the first point of the group has. *)
Theorem boundingBox_encloses (qs0 : list Qc) (qss : list (list Qc)) :
  ∃ mins maxs,
    Geom.boundingBox (finite_pt <$> (qs0 :: qss))
    = Return [finite_pt mins; finite_pt maxs]
    ∧ ∀ qs d q, qs ∈ qs0 :: qss → qs !! d = Some q → (d < length qs0)%nat →
        ∃ m M, mins !! d = Some m ∧ maxs !! d = Some M ∧ m ≤ q ∧ q ≤ M.
Proof.
  rewrite boundingBox_finite. eexists _, _. split; [done|].
  intros qs d q Hqs Hq Hd. eexists _, _.
  rewrite !list_lookup_fmap, !lookup_seq_lt by done. cbn.
  split; [done|]. split; [done|].
  assert (q ∈ column d (qs0 :: qss)) by (apply elem_of_column; eauto).
  split; [by apply least_le|by apply greatest_ge].
Qed.

(** X23. When no component exceeds [Number.MAX_VALUE] and every component
    index of the first point has, in some point, a value of at least
    [Number.MIN_VALUE], [boundingBox] returns the componentwise minimum and
    maximum of the points. *)
Theorem boundingBox_exact (qs0 : list Qc) (qss : list (list Qc)) :
  Forall (Forall (λ q, q ≤ MAXQ)) (qs0 :: qss) →
  Forall (λ d, Exists (λ q, MINQ ≤ q) (column d (qs0 :: qss)))
         (seq 0 (length qs0)) →
  ∃ mins maxs,
    Geom.boundingBox (finite_pt <$> (qs0 :: qss))
    = Return [finite_pt mins; finite_pt maxs]
    ∧ ∀ d, (d < length qs0)%nat →
        ∃ m M, mins !! d = Some m ∧ maxs !! d = Some M
               ∧ is_least m (column d (qs0 :: qss))
               ∧ is_greatest M (column d (qs0 :: qss)).
Proof.
  intros Hmax Hmin. rewrite boundingBox_finite. eexists _, _. split; [done|].
  intros d Hd. eexists _, _.
  rewrite !list_lookup_fmap, !lookup_seq_lt by done.
  cbn [fmap option_fmap option_map Nat.add].
  split; [done|]. split; [done|].
  set (col := column d (qs0 :: qss)).
  assert (∃ q0, qs0 !! d = Some q0) as [q0 Hq0] by by apply lookup_lt_is_Some.
  assert (q0 ∈ col) as Hq0col.
  { apply elem_of_column. exists qs0. split; [apply elem_of_cons; by left|done]. }
  assert (∀ q, q ∈ col → q ≤ MAXQ) as Hle.
  { intros q (qs & Hqs & Hq)%elem_of_column.
    rewrite list.Forall_forall in Hmax. specialize (Hmax qs Hqs).
    rewrite list.Forall_forall in Hmax. apply Hmax.
    by apply list_elem_of_lookup_2 in Hq. }
  assert (∃ q, q ∈ col ∧ MINQ ≤ q) as (q1 & Hq1 & Hq1le).
  { rewrite list.Forall_forall in Hmin.
    specialize (Hmin d). rewrite list.Exists_exists in Hmin.
    apply Hmin. apply elem_of_seq. lia. }
  split; split.
  - destruct (least_in MAXQ col) as [Heq|Hin]; [|done].
    rewrite Heq. replace MAXQ with q0; [done|].
    apply (anti_symm Qcle); [by apply Hle|].
    rewrite <-Heq. by apply least_le.
  - intros q Hq. by apply least_le.
  - destruct (greatest_in MINQ col) as [Heq|Hin]; [|done].
    rewrite Heq. replace MINQ with q1; [done|].
    apply (anti_symm Qcle); [|done].
    rewrite <-Heq. by apply greatest_ge.
  - intros q Hq. by apply greatest_ge.
Qed.

Lemma boundingBox_exact_witness :
  ∃ mins maxs,
    Geom.boundingBox [pt2 0 5; pt2 3 1; pt2 (-2) 7]
    = Return [finite_pt mins; finite_pt maxs]
    ∧ ∀ d, (d < 2)%nat →
        ∃ m M, mins !! d = Some m ∧ maxs !! d = Some M
               ∧ is_least m
                   (column d [[Qc_of_Z 0; Qc_of_Z 5]; [Qc_of_Z 3; Qc_of_Z 1];
                              [Qc_of_Z (-2); Qc_of_Z 7]])
               ∧ is_greatest M
                   (column d [[Qc_of_Z 0; Qc_of_Z 5]; [Qc_of_Z 3; Qc_of_Z 1];
                              [Qc_of_Z (-2); Qc_of_Z 7]]).
Proof.
  apply (boundingBox_exact [Qc_of_Z 0; Qc_of_Z 5]
           [[Qc_of_Z 3; Qc_of_Z 1]; [Qc_of_Z (-2); Qc_of_Z 7]]);
    by apply (bool_decide_eq_true_1 _); vm_compute.
Defined.

End bounding_more.

(** * Further properties of points *)

Section points_more.

Local Open Scope Qc_scope.

Lemma forallb_ext_all {A} (f g : A → bool) (l : list A) :
  (∀ x, f x = g x) → forallb f l = forallb g l.
Proof. intros Hfg. induction l as [|x l IH]; cbn; [done|]. by rewrite Hfg, IH. Qed.

Lemma withinBound_bounds_swap (pt boundPt1 boundPt2 : Pt) :
  Geom.withinBound pt boundPt1 boundPt2 = Geom.withinBound pt boundPt2 boundPt1.
Proof.
  unfold Geom.withinBound. cbv zeta.
  replace (Nat.min (Nat.min (length pt) (length boundPt2)) (length boundPt1))
    with (Nat.min (Nat.min (length pt) (length boundPt1)) (length boundPt2))
    by lia.
  apply forallb_ext_all. intros i.
  by rewrite (min_comm boundPt1.[i]), (max_comm boundPt1.[i]).
Qed.

Lemma withinBound_true (pt b1 b2 : Pt) :
  (∀ i, (i < length pt)%nat → (i < length b1)%nat → (i < length b2)%nat →
        Num.within pt.[i] b1.[i] b2.[i] = true) →
  Geom.withinBound pt b1 b2 = true.
Proof.
  intros Hall. unfold Geom.withinBound. cbv zeta.
  apply forallb_forall. intros i [_ Hi]%in_seq.
  apply (Hall i); lia.
Qed.

(** X24. [withinBound] does not depend on the order of the two bounding
    points, whatever the three points are.  Only the components that the
    three points share are compared: with a point or a bound of no
    component it is true; and the two bounding points themselves, of
    finite components, are within their bounds. *)
Theorem withinBound_ends (a b : list Qc) (pt boundPt1 boundPt2 : Pt) :
  Geom.withinBound pt boundPt1 boundPt2 = Geom.withinBound pt boundPt2 boundPt1
  ∧ Geom.withinBound [] (finite_pt a) (finite_pt b) = true
  ∧ Geom.withinBound pt [] (finite_pt b) = true
  ∧ Geom.withinBound (finite_pt a) (finite_pt a) (finite_pt b) = true
  ∧ Geom.withinBound (finite_pt b) (finite_pt a) (finite_pt b) = true.
Proof.
  split; [apply withinBound_bounds_swap|].
  assert (∀ x y z : Qc, qmin x y ≤ z → z ≤ qmax x y →
                        Num.within (Fin z) (Fin x) (Fin y) = true) as Hin.
  { intros x y z ? ?. unfold Num.within. autorewrite with fin.
    by rewrite !bool_decide_eq_true_2. }
  split; [done|]. split.
  { apply withinBound_true. cbn. lia. }
  unfold finite_pt.
  split; apply withinBound_true; rewrite !length_fmap; intros i H1 H2 H3.
  - apply lookup_lt_is_Some in H1 as [x Hx].
    apply lookup_lt_is_Some in H3 as [y Hy].
    rewrite (comp_finite _ _ _ Hx), (comp_finite _ _ _ Hy).
    apply Hin; [apply qmin_le_l|apply qmax_ge_l].
  - apply lookup_lt_is_Some in H2 as [x Hx].
    apply lookup_lt_is_Some in H3 as [y Hy].
    rewrite (comp_finite _ _ _ Hx), (comp_finite _ _ _ Hy).
    apply Hin; [apply qmin_le_r|apply qmax_ge_r].
Qed.

(** The loop of [interpolate]: every component of the new point is
    assigned. *)
Lemma fill_lookup (f : nat → number) (d0 : list number) (k j : nat) :
  foldl (λ d i, <[i := f i]> d) d0 (seq 0 k) !! j
  = if decide (j < k ∧ j < length d0)%nat then Some (f j) else d0 !! j.
Proof.
  induction k as [|k IH].
  - cbn. rewrite decide_False by lia. done.
  - rewrite seq_S, foldl_app. cbn [foldl plus].
    rewrite list_lookup_insert, IH.
    assert (length (foldl (λ d i, <[i := f i]> d) d0 (seq 0 k)) = length d0) as ->.
    { clear. generalize (seq 0 k). intros ds. revert d0.
      induction ds as [|i ds IHds]; intros d0; [done|].
      cbn [foldl]. by rewrite IHds, length_insert. }
    repeat case_decide; try done; try lia.
    by destruct H0 as [-> _].
Qed.

Lemma interpolate_finite (a b : list Qc) (t : Qc) :
  Geom.interpolate (finite_pt a) (finite_pt b) (Fin t)
  = finite_pt (zip_with (λ x y, x * (1 - t) + y * t) a b).
Proof.
  unfold Geom.interpolate, finite_pt, Pt. cbv zeta. rewrite !length_fmap.
  apply list_eq. intros j.
  rewrite fill_lookup, length_replicate, list_lookup_fmap, lookup_zip_with.
  case_decide as Hj.
  - destruct Hj as [Hj _].
    destruct (lookup_lt_is_Some_2 a j) as [x Hx]; [lia|].
    destruct (lookup_lt_is_Some_2 b j) as [y Hy]; [lia|].
    rewrite (comp_finite _ _ _ Hx), (comp_finite _ _ _ Hy), Hx, Hy.
    rewrite int_1. by autorewrite with fin.
  - rewrite (proj1 (lookup_replicate_None _ _ _)) by lia.
    destruct (a !! j) as [x|] eqn:Hx; [|done]. cbn.
    destruct (b !! j) as [y|] eqn:Hy; [|done].
    apply lookup_lt_Some in Hx, Hy. lia.
Qed.

Lemma zip_with_left (a b : list Qc) (f : Qc → Qc → Qc) :
  (∀ x y, f x y = x) → zip_with f a b = take (length b) a.
Proof.
  intros Hf. revert b. induction a as [|x a IH]; intros [|y b]; cbn; try done.
  by rewrite Hf, IH.
Qed.

(** X25. The point that [interpolate] returns has as many components as
    the shorter of its two points; for finite components it is the first
    point at [t = 0] and the second at [t = 1], each cut to that length,
    and exchanging the two points amounts to replacing [t] by [1 - t]. *)
Theorem interpolate_ends (a b : list Qc) (t : Qc) :
  length (Geom.interpolate (finite_pt a) (finite_pt b) (Fin t))
    = Nat.min (length a) (length b)
  ∧ Geom.interpolate (finite_pt a) (finite_pt b) (int 0)
    = finite_pt (take (length b) a)
  ∧ Geom.interpolate (finite_pt a) (finite_pt b) (int 1)
    = finite_pt (take (length a) b)
  ∧ Geom.interpolate (finite_pt b) (finite_pt a) (Fin t)
    = Geom.interpolate (finite_pt a) (finite_pt b) (Fin (1 - t)).
Proof.
  rewrite int_0, int_1, !interpolate_finite. unfold finite_pt.
  rewrite length_fmap, length_zip_with.
  split; [done|]. split; [|split]; f_equal.
  - apply zip_with_left. intros. ring.
  - rewrite <-zip_with_flip. apply zip_with_left. intros. unfold flip. ring.
  - rewrite <-zip_with_flip. apply zip_with_ext; [|done|done].
    intros. unfold flip. ring.
Qed.

Lemma subpoints_fold (ln : Group) (num : nat) (f : nat → Pt) (ds : list nat)
    (acc : Group) :
  (∀ i, (ln0 ← item ln 0; ln1 ← item ln 1;
         Return (Geom.interpolate ln0 ln1
                   (int (Z.of_nat i) / (int (Z.of_nat num) + int 1))%num))
        = Return (f i)) →
  foldl
    (λ acc i,
       pts ← acc;
       ln0 ← item ln 0; ln1 ← item ln 1;
       let t := (int (Z.of_nat i) / (int (Z.of_nat num) + int 1))%num in
       Return (pts ++ [Geom.interpolate ln0 ln1 t]))
    (Return acc) ds
  = Return (acc ++ (f <$> ds)).
Proof.
  intros Hf. revert acc. induction ds as [|i ds IH]; intros acc.
  - cbn. by rewrite app_nil_r.
  - cbn [foldl fmap list_fmap]. cbn [mbind outcome_bind].
    specialize (Hf i).
    destruct (item ln 0) as [ln0|]; [|done]. cbn [mbind outcome_bind] in *.
    destruct (item ln 1) as [ln1|]; [|done]. cbn [mbind outcome_bind] in *.
    injection Hf as <-. cbv zeta. rewrite IH. by rewrite <-app_assoc.
Qed.

Lemma subpoints_two (a b : Pt) (rest : Group) (num : nat) :
  Line.subpoints (a :: b :: rest) num
  = Return ((λ i, Geom.interpolate a b
                    (int (Z.of_nat i) / (int (Z.of_nat num) + int 1))%num)
            <$> seq 1 num).
Proof.
  unfold Line.subpoints.
  by rewrite (subpoints_fold (a :: b :: rest) num
                (λ i, Geom.interpolate a b
                        (int (Z.of_nat i) / (int (Z.of_nat num) + int 1))%num)
                _ [] (λ i, eq_refl)).
Qed.

(** X26. [subpoints] with a count of zero returns the empty group, even
    for a line that has no point; with a positive count it throws a
    TypeError when the line has fewer than two points, and otherwise
    returns as many points as the count, the [i]-th being the
    interpolation of the two ends at [i / (num + 1)]. *)
Theorem subpoints_shape (ln : Group) (num : nat) :
  Line.subpoints ln num =
    match num, ln with
    | 0%nat, _ => Return []
    | _, a :: b :: _ =>
        Return ((λ i, Geom.interpolate a b
                        (int (Z.of_nat i) / (int (Z.of_nat num) + int 1))%num)
                <$> seq 1 num)
    | _, _ => Throw TypeError
    end.
Proof.
  destruct num as [|n]; [done|].
  destruct ln as [|a [|b rest]].
  - unfold Line.subpoints. cbn [seq foldl item lookup list_lookup mbind outcome_bind].
    generalize (seq 2 n). intros ds. by induction ds.
  - unfold Line.subpoints. cbn [seq foldl item lookup list_lookup mbind outcome_bind].
    generalize (seq 2 n). intros ds. by induction ds.
  - apply subpoints_two.
Qed.

Example subpoints_three :
  Line.subpoints [pt2 0 0; pt2 10 0] 3
  = Return [ [Fin (Qc_of_Z 5 / Qc_of_Z 2); int 0]; pt2 5 0;
             [Fin (Qc_of_Z 15 / Qc_of_Z 2); int 0] ].
Proof. by_eval. Qed.

Lemma reverse_fmap_seq {A} (g : nat → A) (n : nat) :
  reverse (g <$> seq 1 n) = (λ i, g (n + 1 - i)%nat) <$> seq 1 n.
Proof.
  apply list_eq. intros i.
  destruct (decide (i < n)%nat) as [Hi|Hi].
  - rewrite reverse_lookup by by rewrite length_fmap, length_seq.
    rewrite !list_lookup_fmap, length_fmap, length_seq.
    rewrite !lookup_seq_lt by lia. cbn. do 2 f_equal. lia.
  - rewrite !lookup_ge_None_2;
      [done|by rewrite length_fmap, length_seq; lia
           |by rewrite length_reverse, length_fmap, length_seq; lia].
Qed.

Lemma count_plus_one_ne (n : nat) : Qc_of_Z (Z.of_nat n) + 1 ≠ 0.
Proof.
  apply Qclt_0_ne.
  replace 1 with (Qc_of_Z 1) by by apply Qc_is_canon.
  rewrite <-Qc_of_Z_plus. unfold Qclt. cbn [this Qc_of_Z Q2Qc].
  rewrite ?Qred_correct. change 0%Q with (inject_Z 0). rewrite <-Zlt_Qlt. lia.
Qed.

Lemma fraction_Fin (i n : nat) :
  (int (Z.of_nat i) / (int (Z.of_nat n) + int 1))%num
  = Fin (Qc_of_Z (Z.of_nat i) / (Qc_of_Z (Z.of_nat n) + 1)).
Proof.
  rewrite int_1. unfold int. rewrite add_Fin. apply div_Fin.
  apply count_plus_one_ne.
Qed.

(** X27. For a segment of finite coordinates, [subpoints] of the segment
    taken from its other end returns the same points in the reverse
    order. *)
Theorem subpoints_reverse (a b : list Qc) (rest rest' : Group) (num : nat) :
  ∃ pts,
    Line.subpoints (finite_pt a :: finite_pt b :: rest) num = Return pts
    ∧ Line.subpoints (finite_pt b :: finite_pt a :: rest') num
      = Return (reverse pts).
Proof.
  rewrite !subpoints_two. eexists. split; [done|]. f_equal.
  rewrite reverse_fmap_seq. apply list_fmap_ext.
  intros k i [-> Hk]%lookup_seq.
  rewrite !fraction_Fin, !interpolate_finite. f_equal.
  rewrite <-zip_with_flip. apply zip_with_ext; [|done|done].
  intros x y. unfold flip.
  replace (Z.of_nat (num + 1 - (1 + k))) with (Z.of_nat num + 1 + - Z.of_nat (1 + k))%Z
    by lia.
  rewrite !Qc_of_Z_plus, Qc_of_Z_opp.
  replace (Qc_of_Z 1) with 1 by by apply Qc_is_canon.
  pose proof (count_plus_one_ne num) as Hne.
  generalize dependent (Qc_of_Z (Z.of_nat num) + 1). intros D HD.
  generalize (Qc_of_Z (Z.of_nat (1 + k))). intros I. by field.
Qed.

End points_more.

Section shapes_more.

Local Open Scope Qc_scope.

(** X28. For a point of finite components and two different indices [x]
    and [y] inside it, [perpendicular] returns two points that differ from
    the point in these two components only: the first has [-p[y]] at [x]
    and [p[x]] at [y], the second the opposite values, so that both are at
    a right angle to the point in that plane. *)
Theorem perpendicular_pair (qs : list Qc) (x y : nat) (px py : Qc) :
  qs !! x = Some px → qs !! y = Some py → x ≠ y →
  ∃ pa pb,
    Geom.perpendicular (finite_pt qs) x y = [finite_pt pa; finite_pt pb]
    ∧ pa !! x = Some (- py) ∧ pa !! y = Some px
    ∧ pb !! x = Some py ∧ pb !! y = Some (- px)
    ∧ (∀ i, i ≠ x → i ≠ y → pa !! i = qs !! i ∧ pb !! i = qs !! i)
    ∧ dot_in_plane x y qs pa = Some 0 ∧ dot_in_plane x y qs pb = Some 0.
Proof.
  intros Hx Hy Hxy.
  exists (<[y := px]> (<[x := - py]> qs)), (<[y := - px]> (<[x := py]> qs)).
  assert (x < length qs)%nat by by eapply lookup_lt_Some.
  assert (y < length qs)%nat by by eapply lookup_lt_Some.
  assert (∀ u v : Qc, <[y := v]> (<[x := u]> qs) !! x = Some u) as Hatx.
  { intros. rewrite list_lookup_insert_ne by done. by apply list_lookup_insert_eq. }
  assert (∀ u v : Qc, <[y := v]> (<[x := u]> qs) !! y = Some v) as Haty.
  { intros. apply list_lookup_insert_eq. by rewrite length_insert. }
  split.
  { unfold Geom.perpendicular, finite_pt. cbv zeta.
    rewrite (comp_finite _ _ _ Hx), (comp_finite _ _ _ Hy). unfold Pt.
    by rewrite !list_fmap_insert. }
  do 4 (split; [done|]). split; [|split].
  - intros i ? ?. by rewrite !list_lookup_insert_ne by done.
  - unfold dot_in_plane. rewrite Hx, Hy, Hatx, Haty. cbn. f_equal. ring.
  - unfold dot_in_plane. rewrite Hx, Hy, Hatx, Haty. cbn. f_equal. ring.
Qed.

Lemma perpendicular_pair_witness :
  ∃ pa pb,
    Geom.perpendicular (pt2 3 4) 0 1 = [finite_pt pa; finite_pt pb]
    ∧ pa !! 0%nat = Some (- Qc_of_Z 4) ∧ pa !! 1%nat = Some (Qc_of_Z 3)
    ∧ pb !! 0%nat = Some (Qc_of_Z 4) ∧ pb !! 1%nat = Some (- Qc_of_Z 3)
    ∧ (∀ i, i ≠ 0%nat → i ≠ 1%nat →
         pa !! i = [Qc_of_Z 3; Qc_of_Z 4] !! i ∧ pb !! i = [Qc_of_Z 3; Qc_of_Z 4] !! i)
    ∧ dot_in_plane 0 1 [Qc_of_Z 3; Qc_of_Z 4] pa = Some 0
    ∧ dot_in_plane 0 1 [Qc_of_Z 3; Qc_of_Z 4] pb = Some 0.
Proof.
  apply (perpendicular_pair [Qc_of_Z 3; Qc_of_Z 4] 0 1 (Qc_of_Z 3) (Qc_of_Z 4));
    [reflexivity|reflexivity|lia].
Defined.

Lemma to_length (p : Pt) (args : list number) :
  length (PtClass.to p args) = length p.
Proof. unfold PtClass.to. rewrite length_app, length_take, length_drop. lia. Qed.

(** X29. [sides] throws a TypeError on a group of fewer than two points.
    On any other group it returns four segments that form a closed loop:
    from the first point to a corner, to the second point, to another
    corner and back to the first point, the two corners having as many
    components as the first point. *)
Theorem sides_closed_loop (pts : Group) :
  match pts with
  | p0 :: p2 :: _ =>
      ∃ p1 p3,
        Rectangle.sides pts = Return [ [p0; p1]; [p1; p2]; [p2; p3]; [p3; p0] ]
        ∧ length p1 = length p0 ∧ length p3 = length p0
  | _ => Rectangle.sides pts = Throw TypeError
  end.
Proof.
  destruct pts as [|p0 [|p2 rest]]; try done.
  unfold Rectangle.sides. cbn [item lookup list_lookup mbind outcome_bind].
  eexists _, _. split; [done|]. by rewrite !to_length.
Qed.

End shapes_more.

(** * Further properties on the store *)

Module StoreMore.

Import Store.

Section empty_group.

Context `{PtArith}.

(** X30. [sum] and [average] of a group that has no point throw a
    TypeError, when they read the length of its first point, and leave the
    store as it is: no accumulator is built. *)
Theorem sum_average_empty_group (h1 h2 : list obj) :
  let h := h1 ++ OGroup [] :: h2 in
  sum (length h1) h = (h, Throw TypeError)
  ∧ average (length h1) h = (h, Throw TypeError).
Proof.
  intros h. subst h.
  assert (sum (length h1) (h1 ++ OGroup [] :: h2)
          = (h1 ++ OGroup [] :: h2, Throw TypeError)) as Hsum.
  { unfold sum, group_item, readGroup, load, mbind, M_bind.
    by rewrite list_lookup_middle. }
  split; [done|]. unfold average, mbind, M_bind at 1. by rewrite Hsum.
Qed.

End empty_group.

End StoreMore.
